(** * Reference-counted ownership: [shared_ptr], [weak_ptr] and their control block

    A shallow embedding of [shared-ptr.h] and [shared-ptr.cpp].

    - A control block lives in a heap keyed by the address [operator new]
      returned for it.  The model never hands out an address twice, so an
      address names one block over a whole run.
    - The counters are [size_t]: integers with wrap-around modulo [2^64].
    - Deleters and the destructor of the pointee are client code.  The model
      records each call in a trace; what the callee does next is a
      parameter of [unlink] ([client]).  The handle operations, the programs
      and the invariants are stated for callees that touch no handle
      ([inert]): the handles of a program are then its named handle objects.
    - Reading a member of a block that is no longer in the heap has no
      defined behaviour: the operation yields [None].
    - A handle is its two members [cb] and [ptr].  The pointee type is not
      modelled, so a converting constructor or assignment is the same
      function as the one for equal types ([static_cast] is the identity).
    - Whether a new-expression succeeds is decided by the environment and
      is an argument of the functions that contain one. *)

From stdpp Require Import gmap list.
From Stdlib Require Import ZArith Lia.

Local Open Scope Z_scope.

(** ** Machine integers *)

Definition SIZE_MAX : Z := 2 ^ 64 - 1.

(** Arithmetic on [size_t] is modulo [SIZE_MAX + 1]. *)
Definition size_t (n : Z) : Z := n mod 2 ^ 64.

(** ** Addresses, pointers, deleters *)

(** Address of a control block. *)
Definition loc := positive.

(** A typed pointer [T*]: null, an object of the client, or the storage
    embedded in the in-place block [b]. *)
Inductive pointer : Type :=
| nullptr
| object_at (a : Z)
| storage_of (b : loc).

#[global] Instance pointer_eq_dec : EqDecision pointer.
Proof. solve_decision. Defined.

(** A deleter is identified by a tag; [default_delete] is one of them. *)
Definition deleter := nat.
Definition default_delete : deleter := 0%nat.

(** ** Observable events *)

(** What [unlink] does to the pointee. *)
Inductive disposal : Type :=
| Deleter (d : deleter) (p : pointer)   (* deleter(ptr) *)
| Destructor (p : pointer).             (* reinterpret_cast<T*>(&data)->~T() *)

Inductive event : Type :=
| Alloc (b : loc)                       (* operator new returned b *)
| Reclaim (b : loc)                     (* a constructor threw inside the
                                           new-expression: storage given back *)
| Unlink (b : loc) (a : disposal)       (* b->unlink() *)
| Rollback (d : deleter) (p : pointer)  (* deleter(ptr) in the catch clause *)
| DeleteThis (b : loc).                     (* delete this *)

#[global] Instance disposal_eq_dec : EqDecision disposal.
Proof. solve_decision. Defined.
#[global] Instance event_eq_dec : EqDecision event.
Proof. solve_decision. Defined.

(** ** Control blocks *)

Module details.

(** The two classes derived from [control_block]. *)
Inductive block_kind : Type :=
| ptr_block (ptr : pointer) (deleter : deleter)
| obj_block.

Record control_block : Type := mk_control_block {
  strong_ref_ : Z;
  weak_ref_ : Z;
  kind : block_kind
}.

Definition set_strong (n : Z) (c : control_block) : control_block :=
  mk_control_block n (weak_ref_ c) (kind c).
Definition set_weak (n : Z) (c : control_block) : control_block :=
  mk_control_block (strong_ref_ c) n (kind c).

(** [ptr_block(T* ptr, D deleter) : control_block(1, 0), ...] *)
Definition new_ptr_block (p : pointer) (d : deleter) : control_block :=
  mk_control_block 1 0 (ptr_block p d).

(** [obj_block(Args&&...) : control_block(1, 0)] *)
Definition new_obj_block : control_block :=
  mk_control_block 1 0 obj_block.

End details.
Export details.

(** ** The world: heap of control blocks, allocator cursor, trace *)

Record World : Type := mk_World {
  heap : gmap loc control_block;
  next : loc;
  trace : list event
}.

Definition empty_world : World := mk_World ∅ 1%positive [].

Definition emit (e : event) (w : World) : World :=
  mk_World (heap w) (next w) (trace w ++ [e]).

Definition store_block (b : loc) (c : control_block) (w : World) : World :=
  mk_World (<[b := c]> (heap w)) (next w) (trace w).

Module control_block_ops.

(** [size_t control_block::get_strong_ref_count()] *)
Definition get_strong_ref_count (this : loc) (w : World) : option Z :=
  c ← heap w !! this; Some (strong_ref_ c).

(** Reading [weak_ref_], as the tests of [dec_strong_ref] and
    [dec_weak_ref] do. *)
Definition get_weak_ref (this : loc) (w : World) : option Z :=
  c ← heap w !! this; Some (weak_ref_ c).

(** [void control_block::inc_strong_ref() { strong_ref_++; }] *)
Definition inc_strong_ref (this : loc) (w : World) : option World :=
  c ← heap w !! this;
  Some (store_block this (set_strong (size_t (strong_ref_ c + 1)) c) w).

(** [void control_block::inc_weak_ref() { weak_ref_++; }] *)
Definition inc_weak_ref (this : loc) (w : World) : option World :=
  c ← heap w !! this;
  Some (store_block this (set_weak (size_t (weak_ref_ c + 1)) c) w).

(** The action of the virtual [unlink] of a block at [this]:
    [deleter(ptr)] for a [ptr_block], the destructor of the pointee over
    [data] for an [obj_block]. *)
Definition disposal_of (this : loc) (c : control_block) : disposal :=
  match kind c with
  | ptr_block p d => Deleter d p
  | obj_block => Destructor (storage_of this)
  end.

(** The callee of [unlink] is client code: the deleter, or the destructor
    of the pointee and of its members.  A [client] says what that code
    does to the world once it has been called. *)
Definition client : Type := disposal → World → option World.

(** Client code that touches no handle. *)
Definition inert : client := λ _ w, Some w.

(** [virtual void unlink()]: [deleter(ptr);] in [ptr_block],
    [reinterpret_cast<T*>(&data)->~T();] in [obj_block]. *)
Definition unlink_with (run : client) (this : loc) (w : World)
  : option World :=
  c ← heap w !! this;
  run (disposal_of this c) (emit (Unlink this (disposal_of this c)) w).

(** [delete this] *)
Definition delete_this (this : loc) (w : World) : option World :=
  _ ← heap w !! this;
  Some (mk_World (delete this (heap w)) (next w) (trace w ++ [DeleteThis this])).

(** [void control_block::dec_strong_ref()] *)
Definition dec_strong_ref_with (run : client) (this : loc) (w : World)
  : option World :=
  c ← heap w !! this;
  let w := store_block this (set_strong (size_t (strong_ref_ c - 1)) c) w in
  s ← get_strong_ref_count this w;
  w ← (if s =? 0 then unlink_with run this w else Some w);
  s ← get_strong_ref_count this w;
  k ← get_weak_ref this w;
  if (s =? 0) && (k =? 0) then delete_this this w else Some w.

(** The operations for pointees and deleters that touch no handle: all
    handles of the client program are then the named ones. *)
Definition unlink : loc → World → option World := unlink_with inert.
Definition dec_strong_ref : loc → World → option World :=
  dec_strong_ref_with inert.

(** [void control_block::dec_weak_ref()] *)
Definition dec_weak_ref (this : loc) (w : World) : option World :=
  c ← heap w !! this;
  let w := store_block this (set_weak (size_t (weak_ref_ c - 1)) c) w in
  s ← get_strong_ref_count this w;
  k ← get_weak_ref this w;
  if (s =? 0) && (k =? 0) then delete_this this w else Some w.

End control_block_ops.
Export control_block_ops.

(** ** New-expressions *)

(** What the environment decides for one [new B(args...)]: the block is
    built, [operator new] throws, or the constructor of [B] throws after
    the storage was obtained. *)
Inductive new_outcome : Type :=
| Built
| BadAlloc
| CtorThrew.

(** [new B(args...)]: the address of the block, or nothing when an
    exception leaves the expression. *)
Definition new_expr (o : new_outcome) (c : control_block) (w : World)
  : option loc * World :=
  let b := next w in
  match o with
  | Built =>
      (Some b, mk_World (<[b := c]> (heap w)) (Pos.succ b) (trace w ++ [Alloc b]))
  | BadAlloc => (None, w)
  | CtorThrew =>
      (None, mk_World (heap w) (Pos.succ b) (trace w ++ [Alloc b; Reclaim b]))
  end.

(** ** Exceptions *)

(** A call returns a value or leaves by an exception. *)
Inductive outcome (A : Type) : Type :=
| Normal (a : A)
| Throws.
Arguments Normal {A} a.
Arguments Throws {A}.

(** Name (address) of a handle object of the client program. *)
Definition var := nat.
Bind Scope nat_scope with var.

(** ** [shared_ptr<T>] *)

Module shared_ptr.

Record t : Type := mk { cb : option loc; ptr : pointer }.

#[global] Instance t_eq_dec : EqDecision t.
Proof. solve_decision. Defined.

(** [explicit shared_ptr(details::obj_block<T>* cb)
      : cb(cb), ptr(cb->get_ptr())] *)
Definition of_obj_block (b : loc) : t := mk (Some b) (storage_of b).

(** [shared_ptr() noexcept = default;] *)
Definition default : t := mk None nullptr.

(** [shared_ptr(std::nullptr_t) noexcept {}] *)
Definition of_nullptr : t := mk None nullptr.

(** [shared_ptr(Y* ptr, D&& deleter) try : cb(new ptr_block<Y, D>(ptr, deleter)),
      ptr(ptr) {} catch (...) { deleter(ptr); throw; }] *)
Definition of_raw (o : new_outcome) (p : pointer) (d : deleter) (w : World)
  : outcome t * World :=
  match new_expr o (new_ptr_block p d) w with
  | (Some b, w) => (Normal (mk (Some b) p), w)
  | (None, w) => (Throws, emit (Rollback d p) w)
  end.

(** [shared_ptr(const shared_ptr<Y>& other, T* ptr) noexcept] *)
Definition alias (other : t) (p : pointer) (w : World) : option (t * World) :=
  let this := mk (cb other) p in
  match cb this with
  | Some b => w ← inc_strong_ref b w; Some (this, w)
  | None => Some (this, w)
  end.

(** [shared_ptr(const shared_ptr& other) noexcept], and the converting
    copy constructor. *)
Definition copy (other : t) (w : World) : option (t * World) :=
  let this := mk (cb other) (ptr other) in
  match cb this with
  | Some b => w ← inc_strong_ref b w; Some (this, w)
  | None => Some (this, w)
  end.

(** [shared_ptr(shared_ptr&& other) noexcept]: the new handle and what is
    left in [other]. *)
Definition move (other : t) : t * t :=
  (mk (cb other) (ptr other), mk None nullptr).

(** [~shared_ptr()] *)
Definition destroy (this : t) (w : World) : option World :=
  match cb this with
  | Some b => dec_strong_ref b w
  | None => Some w
  end.

(** [void swap(shared_ptr& other)]: the new [*this] and the new [other]. *)
Definition swap (this other : t) : t * t :=
  (mk (cb other) (ptr other), mk (cb this) (ptr this)).

Definition get (this : t) : pointer := ptr this.

(** [operator bool() const noexcept] *)
Definition to_bool (this : t) : bool := bool_decide (get this ≠ nullptr).

(** [operator==] and [operator!=] *)
Definition eqb (a b : t) : bool := bool_decide (ptr a = ptr b).
Definition neqb (a b : t) : bool := bool_decide (ptr a ≠ ptr b).

(** [std::size_t use_count() const noexcept] *)
Definition use_count (this : t) (w : World) : option Z :=
  match cb this with
  | Some b => get_strong_ref_count b w
  | None => Some 0
  end.

(** *** Member functions on handle objects

    These act on an object of the client program, named by its address in
    the frame [hs] of live owning handles. *)

Abbreviation frame := (gmap var t).

(** [shared_ptr& operator=(const shared_ptr& other) noexcept] *)
Definition assign (this other : var) (hs : frame) (w : World)
  : option (frame * World) :=
  if bool_decide (this ≠ other) then
    o ← hs !! other;
    '(tmp, w) ← copy o w;
    h ← hs !! this;
    let '(tmp, h) := swap tmp h in
    w ← destroy tmp w;
    Some (<[this := h]> hs, w)
  else
    _ ← hs !! this; Some (hs, w).

(** [shared_ptr& operator=(shared_ptr&& other) noexcept] *)
Definition move_assign (this other : var) (hs : frame) (w : World)
  : option (frame * World) :=
  if bool_decide (this ≠ other) then
    o ← hs !! other;
    let '(tmp, o) := move o in
    let hs := <[other := o]> hs in
    h ← hs !! this;
    let '(tmp, h) := swap tmp h in
    w ← destroy tmp w;
    Some (<[this := h]> hs, w)
  else
    _ ← hs !! this; Some (hs, w).

(** [void reset() noexcept] *)
Definition reset (this : var) (hs : frame) (w : World)
  : option (frame * World) :=
  h ← hs !! this;
  let '(tmp, h) := swap default h in
  w ← destroy tmp w;
  Some (<[this := h]> hs, w).

(** [void reset(Y* new_ptr, D&& new_deleter)] *)
Definition reset_raw (o : new_outcome) (this : var) (p : pointer) (d : deleter)
    (hs : frame) (w : World) : option (outcome unit * frame * World) :=
  h ← hs !! this;
  match of_raw o p d w with
  | (Normal tmp, w) =>
      let '(tmp, h) := swap tmp h in
      w ← destroy tmp w;
      Some (Normal (), <[this := h]> hs, w)
  | (Throws, w) => Some (Throws, hs, w)
  end.

(** [a.swap(b)] on two handle objects. *)
Definition swap_objects (this other : var) (hs : frame) : option frame :=
  h ← hs !! this;
  o ← hs !! other;
  let '(h, o) := swap h o in
  Some (<[other := o]> (<[this := h]> hs)).

End shared_ptr.

(** ** [weak_ptr<T>] *)

Module weak_ptr.

Record t : Type := mk { cb : option loc; ptr : pointer }.

#[global] Instance t_eq_dec : EqDecision t.
Proof. solve_decision. Defined.

(** [weak_ptr() noexcept = default;] *)
Definition default : t := mk None nullptr.

(** [weak_ptr(const weak_ptr& other) noexcept] *)
Definition copy (other : t) (w : World) : option (t * World) :=
  let this := mk (cb other) (ptr other) in
  match cb this with
  | Some b => w ← inc_weak_ref b w; Some (this, w)
  | None => Some (this, w)
  end.

(** [weak_ptr(weak_ptr&& other) noexcept] *)
Definition move (other : t) : t * t :=
  (mk (cb other) (ptr other), mk None nullptr).

(** [weak_ptr(const shared_ptr<T>& other) noexcept] *)
Definition of_shared (other : shared_ptr.t) (w : World) : option (t * World) :=
  let this := mk (shared_ptr.cb other) (shared_ptr.ptr other) in
  match cb this with
  | Some b => w ← inc_weak_ref b w; Some (this, w)
  | None => Some (this, w)
  end.

(** [~weak_ptr()] *)
Definition destroy (this : t) (w : World) : option World :=
  match cb this with
  | Some b => dec_weak_ref b w
  | None => Some w
  end.

(** [void swap(weak_ptr& other) noexcept] *)
Definition swap (this other : t) : t * t :=
  (mk (cb other) (ptr other), mk (cb this) (ptr this)).

(** [shared_ptr<T> lock() const noexcept] *)
Definition lock (this : t) (w : World) : option (shared_ptr.t * World) :=
  match cb this with
  | None => Some (shared_ptr.default, w)
  | Some b =>
      s ← get_strong_ref_count b w;
      if s =? 0 then Some (shared_ptr.default, w)
      else
        let tmp := shared_ptr.default in
        let tmp := shared_ptr.mk (shared_ptr.cb tmp) (ptr this) in
        let tmp := shared_ptr.mk (cb this) (shared_ptr.ptr tmp) in
        w ← inc_strong_ref b w;
        Some (tmp, w)
  end.

Abbreviation frame := (gmap var t).

(** [weak_ptr& operator=(const weak_ptr& other) noexcept] *)
Definition assign (this other : var) (hs : frame) (w : World)
  : option (frame * World) :=
  if bool_decide (this ≠ other) then
    o ← hs !! other;
    '(tmp, w) ← copy o w;
    h ← hs !! this;
    let '(tmp, h) := swap tmp h in
    w ← destroy tmp w;
    Some (<[this := h]> hs, w)
  else
    _ ← hs !! this; Some (hs, w).

(** [weak_ptr& operator=(weak_ptr&& other) noexcept] *)
Definition move_assign (this other : var) (hs : frame) (w : World)
  : option (frame * World) :=
  if bool_decide (this ≠ other) then
    o ← hs !! other;
    let '(tmp, o) := move o in
    let hs := <[other := o]> hs in
    h ← hs !! this;
    let '(tmp, h) := swap tmp h in
    w ← destroy tmp w;
    Some (<[this := h]> hs, w)
  else
    _ ← hs !! this; Some (hs, w).

(** [weak_ptr& operator=(const shared_ptr<T>& other) noexcept] *)
Definition assign_shared (this : var) (other : shared_ptr.t) (hs : frame)
    (w : World) : option (frame * World) :=
  '(tmp, w) ← of_shared other w;
  h ← hs !! this;
  let '(tmp, h) := swap tmp h in
  w ← destroy tmp w;
  Some (<[this := h]> hs, w).

(** [a.swap(b)] on two handle objects. *)
Definition swap_objects (this other : var) (hs : frame) : option frame :=
  h ← hs !! this;
  o ← hs !! other;
  let '(h, o) := swap h o in
  Some (<[other := o]> (<[this := h]> hs)).

End weak_ptr.

(** ** [make_shared] *)

(** [return shared_ptr<T>(new details::obj_block<T>(args...));] *)
Definition make_shared (o : new_outcome) (w : World)
  : outcome shared_ptr.t * World :=
  match new_expr o new_obj_block w with
  | (Some b, w) => (Normal (shared_ptr.of_obj_block b), w)
  | (None, w) => (Throws, w)
  end.

(** ** Client programs

    A program is a sequence of statements over named handle objects.  Each
    statement is one constructor call, destructor call or member call of
    the library.  Whether a new-expression succeeds is part of the
    statement: it is the choice of the environment. *)

Record State : Type := mk_State {
  world : World;
  owners : gmap var shared_ptr.t;
  observers : gmap var weak_ptr.t
}.

Definition initial : State := mk_State empty_world ∅ ∅.

Inductive stmt : Type :=
| Sp_default (x : var)                          (* shared_ptr<T> x; *)
| Sp_nullptr (x : var)                          (* shared_ptr<T> x(nullptr); *)
| Sp_raw (x : var) (p : pointer) (d : deleter) (o : new_outcome)
                                                (* shared_ptr<T> x(p, d); *)
| Sp_make (x : var) (o : new_outcome)           (* auto x = make_shared<T>(...); *)
| Sp_alias (x y : var) (p : pointer)            (* shared_ptr<T> x(y, p); *)
| Sp_copy (x y : var)                           (* shared_ptr<T> x(y); *)
| Sp_move (x y : var)                           (* shared_ptr<T> x(std::move(y)); *)
| Sp_assign (x y : var)                         (* x = y; *)
| Sp_move_assign (x y : var)                    (* x = std::move(y); *)
| Sp_destroy (x : var)                          (* x.~shared_ptr(); *)
| Sp_reset (x : var)                            (* x.reset(); *)
| Sp_reset_raw (x : var) (p : pointer) (d : deleter) (o : new_outcome)
                                                (* x.reset(p, d); *)
| Sp_swap (x y : var)                           (* x.swap(y); *)
| Wp_default (x : var)                          (* weak_ptr<T> x; *)
| Wp_copy (x y : var)                           (* weak_ptr<T> x(y); *)
| Wp_move (x y : var)                           (* weak_ptr<T> x(std::move(y)); *)
| Wp_of_shared (x y : var)                      (* weak_ptr<T> x(y), y owning *)
| Wp_assign (x y : var)                         (* x = y; *)
| Wp_move_assign (x y : var)                    (* x = std::move(y); *)
| Wp_assign_shared (x y : var)                  (* x = y, y owning *)
| Wp_destroy (x : var)                          (* x.~weak_ptr(); *)
| Wp_swap (x y : var)                           (* x.swap(y); *)
| Wp_lock (x y : var).                          (* shared_ptr<T> x = y.lock(); *)

(** A declaration needs a name that is not in use. *)
Definition fresh {A} (x : var) (hs : gmap var A) : option unit :=
  match hs !! x with
  | None => Some ()
  | Some _ => None
  end.

Definition exec (c : stmt) (s : State) : option State :=
  let w := world s in
  let sp := owners s in
  let wp := observers s in
  match c with
  | Sp_default x =>
      _ ← fresh x sp;
      Some (mk_State w (<[x := shared_ptr.default]> sp) wp)
  | Sp_nullptr x =>
      _ ← fresh x sp;
      Some (mk_State w (<[x := shared_ptr.of_nullptr]> sp) wp)
  | Sp_raw x p d o =>
      _ ← fresh x sp;
      match shared_ptr.of_raw o p d w with
      | (Normal h, w) => Some (mk_State w (<[x := h]> sp) wp)
      | (Throws, w) => Some (mk_State w sp wp)
      end
  | Sp_make x o =>
      _ ← fresh x sp;
      match make_shared o w with
      | (Normal h, w) => Some (mk_State w (<[x := h]> sp) wp)
      | (Throws, w) => Some (mk_State w sp wp)
      end
  | Sp_alias x y p =>
      _ ← fresh x sp;
      other ← sp !! y;
      '(h, w) ← shared_ptr.alias other p w;
      Some (mk_State w (<[x := h]> sp) wp)
  | Sp_copy x y =>
      _ ← fresh x sp;
      other ← sp !! y;
      '(h, w) ← shared_ptr.copy other w;
      Some (mk_State w (<[x := h]> sp) wp)
  | Sp_move x y =>
      _ ← fresh x sp;
      other ← sp !! y;
      let '(h, other) := shared_ptr.move other in
      Some (mk_State w (<[x := h]> (<[y := other]> sp)) wp)
  | Sp_assign x y =>
      '(sp, w) ← shared_ptr.assign x y sp w;
      Some (mk_State w sp wp)
  | Sp_move_assign x y =>
      '(sp, w) ← shared_ptr.move_assign x y sp w;
      Some (mk_State w sp wp)
  | Sp_destroy x =>
      h ← sp !! x;
      w ← shared_ptr.destroy h w;
      Some (mk_State w (delete x sp) wp)
  | Sp_reset x =>
      '(sp, w) ← shared_ptr.reset x sp w;
      Some (mk_State w sp wp)
  | Sp_reset_raw x p d o =>
      '(_, sp, w) ← shared_ptr.reset_raw o x p d sp w;
      Some (mk_State w sp wp)
  | Sp_swap x y =>
      sp ← shared_ptr.swap_objects x y sp;
      Some (mk_State w sp wp)
  | Wp_default x =>
      _ ← fresh x wp;
      Some (mk_State w sp (<[x := weak_ptr.default]> wp))
  | Wp_copy x y =>
      _ ← fresh x wp;
      other ← wp !! y;
      '(h, w) ← weak_ptr.copy other w;
      Some (mk_State w sp (<[x := h]> wp))
  | Wp_move x y =>
      _ ← fresh x wp;
      other ← wp !! y;
      let '(h, other) := weak_ptr.move other in
      Some (mk_State w sp (<[x := h]> (<[y := other]> wp)))
  | Wp_of_shared x y =>
      _ ← fresh x wp;
      other ← sp !! y;
      '(h, w) ← weak_ptr.of_shared other w;
      Some (mk_State w sp (<[x := h]> wp))
  | Wp_assign x y =>
      '(wp, w) ← weak_ptr.assign x y wp w;
      Some (mk_State w sp wp)
  | Wp_move_assign x y =>
      '(wp, w) ← weak_ptr.move_assign x y wp w;
      Some (mk_State w sp wp)
  | Wp_assign_shared x y =>
      other ← sp !! y;
      '(wp, w) ← weak_ptr.assign_shared x other wp w;
      Some (mk_State w sp wp)
  | Wp_destroy x =>
      h ← wp !! x;
      w ← weak_ptr.destroy h w;
      Some (mk_State w sp (delete x wp))
  | Wp_swap x y =>
      wp ← weak_ptr.swap_objects x y wp;
      Some (mk_State w sp wp)
  | Wp_lock x y =>
      _ ← fresh x sp;
      this ← wp !! y;
      '(h, w) ← weak_ptr.lock this w;
      Some (mk_State w (<[x := h]> sp) wp)
  end.

Fixpoint run (prog : list stmt) (s : State) : option State :=
  match prog with
  | [] => Some s
  | c :: prog => s ← exec c s; run prog s
  end.

(** *** Reading a trace *)

Definition is_unlink (b : loc) (e : event) : bool :=
  match e with Unlink b' _ => bool_decide (b' = b) | _ => false end.
Definition is_delete (b : loc) (e : event) : bool :=
  match e with DeleteThis b' => bool_decide (b' = b) | _ => false end.
Definition is_reclaim (b : loc) (e : event) : bool :=
  match e with Reclaim b' => bool_decide (b' = b) | _ => false end.

(** A call [d(p)], from [unlink] or from a catch clause. *)
Definition is_call (d : deleter) (p : pointer) (e : event) : bool :=
  match e with
  | Unlink _ (Deleter d' p') => bool_decide (d' = d ∧ p' = p)
  | Rollback d' p' => bool_decide (d' = d ∧ p' = p)
  | _ => false
  end.

(** A catch clause ran a deleter. *)
Definition is_rollback (e : event) : bool :=
  match e with Rollback _ _ => true | _ => false end.

Definition count (f : event → bool) (tr : list event) : nat :=
  length (filter (λ e, f e = true) tr).

Definition disposals (b : loc) (tr : list event) : nat := count (is_unlink b) tr.
Definition deallocations (b : loc) (tr : list event) : nat :=
  (count (is_delete b) tr + count (is_reclaim b) tr)%nat.

(** *** Counting the handles that reference a block *)

(** [tick b r] is 1 when the reference [r] is to [b], else 0. *)
Definition tick (b : loc) (r : option loc) : nat :=
  if decide (r = Some b) then 1%nat else 0%nat.

(** Number of handles of a frame whose block is [b]. *)
Definition refs {A} (f : A → option loc) (b : loc) (hs : gmap var A) : nat :=
  size (filter (λ kv, f kv.2 = Some b) hs).

Definition strong_handles (b : loc) (s : State) : nat :=
  refs shared_ptr.cb b (owners s).
Definition weak_handles (b : loc) (s : State) : nat :=
  refs weak_ptr.cb b (observers s).

(** ** The counting invariant

    [sc b] and [wc b] are the numbers of owning and of weak references to
    the block [b] that exist at this point: the handle objects of the
    client and the temporaries of the member function being run. *)

(** Every [delete this] of a block comes after its [unlink]. *)
Definition disposed_first (tr : list event) : Prop :=
  ∀ t1 t2 b, tr = t1 ++ DeleteThis b :: t2 → (0 < disposals b t1)%nat.

Definition block_ok (w : World) (sc wc : loc → nat) (b : loc) : Prop :=
  match heap w !! b with
  | Some c =>
      strong_ref_ c = Z.of_nat (sc b) ∧ weak_ref_ c = Z.of_nat (wc b) ∧
      (0 < sc b + wc b)%nat ∧ (b < next w)%positive ∧
      disposals b (trace w) = (if decide (sc b = 0%nat) then 1%nat else 0%nat) ∧
      deallocations b (trace w) = 0%nat
  | None =>
      sc b = 0%nat ∧ wc b = 0%nat ∧
      if decide (b < next w)%positive
      then deallocations b (trace w) = 1%nat ∧ (disposals b (trace w) ≤ 1)%nat
      else deallocations b (trace w) = 0%nat ∧ disposals b (trace w) = 0%nat
  end.

Definition consistent (w : World) (sc wc : loc → nat) : Prop :=
  (∀ b, block_ok w sc wc b) ∧ disposed_first (trace w).

(** *** Taking and dropping a reference through a handle

    [if (cb) cb->inc_strong_ref();] and its three siblings, as the
    constructors and destructors of the handles write them. *)

Definition acquire_strong (r : option loc) (w : World) : option World :=
  match r with Some b => inc_strong_ref b w | None => Some w end.
Definition release_strong (r : option loc) (w : World) : option World :=
  match r with Some b => dec_strong_ref b w | None => Some w end.
Definition acquire_weak (r : option loc) (w : World) : option World :=
  match r with Some b => inc_weak_ref b w | None => Some w end.
Definition release_weak (r : option loc) (w : World) : option World :=
  match r with Some b => dec_weak_ref b w | None => Some w end.

(** ** Well-formed program states *)

(** The counters of every block agree with the handle objects of the
    client, and the trace agrees with the counters. *)
Definition wf (s : State) : Prop :=
  consistent (world s) (λ b, strong_handles b s) (λ b, weak_handles b s).

(** The handle objects, and [n] more, can be counted in a [size_t]. *)
Definition room (n : nat) (s : State) : Prop :=
  Z.of_nat (size (owners s)) + Z.of_nat (size (observers s)) + Z.of_nat n
    < SIZE_MAX.

Definition declared {A} (x : var) (hs : gmap var A) : bool :=
  bool_decide (is_Some (hs !! x)).
Definition unused {A} (x : var) (hs : gmap var A) : bool :=
  bool_decide (hs !! x = None).

(** The names of a statement are used as C++ allows: a declaration
    introduces a name that is not in use, every other name denotes a live
    object. *)
Definition scoped (c : stmt) (s : State) : bool :=
  let sp := owners s in
  let wp := observers s in
  match c with
  | Sp_default x | Sp_nullptr x | Sp_raw x _ _ _ | Sp_make x _ => unused x sp
  | Sp_alias x y _ | Sp_copy x y | Sp_move x y => unused x sp && declared y sp
  | Sp_assign x y | Sp_move_assign x y | Sp_swap x y =>
      declared x sp && declared y sp
  | Sp_destroy x | Sp_reset x | Sp_reset_raw x _ _ _ => declared x sp
  | Wp_default x => unused x wp
  | Wp_copy x y | Wp_move x y => unused x wp && declared y wp
  | Wp_of_shared x y => unused x wp && declared y sp
  | Wp_assign x y | Wp_move_assign x y | Wp_swap x y =>
      declared x wp && declared y wp
  | Wp_assign_shared x y => declared x wp && declared y sp
  | Wp_destroy x => declared x wp
  | Wp_lock x y => unused x sp && declared y wp
  end.

(** The state grows by one handle object at most. *)
Definition grows (s s' : State) : Prop :=
  (size (owners s') + size (observers s')
     ≤ S (size (owners s) + size (observers s)))%nat.

(** What [lock] hands out: the block of the weak handle while an owner
    is left, nothing otherwise. *)
Definition promoted (sc : loc → nat) (this : weak_ptr.t) : option loc :=
  match weak_ptr.cb this with
  | Some b => if decide (sc b = 0%nat) then None else Some b
  | None => None
  end.

(** ** Example programs and states *)

(** A sole owner of an in-place block. *)
Definition sole_owner_world : World :=
  mk_World {[1%positive := new_obj_block]} 2%positive [Alloc 1%positive].

(** The scenario of the specification, up to the destruction of the last
    owner: the pointee is disposed, the block stays for the weak handle. *)
Definition scenario : list stmt :=
  [Sp_make 0 Built; Sp_copy 1 0; Sp_destroy 0; Wp_of_shared 0 1; Sp_destroy 1].

Definition scenario_end : State :=
  mk_State
    (mk_World {[1%positive := mk_control_block 0 1 obj_block]} 2%positive
       [Alloc 1%positive; Unlink 1%positive (Destructor (storage_of 1%positive))])
    ∅
    {[0%nat := weak_ptr.mk (Some 1%positive) (storage_of 1%positive)]}.

Definition scenario_weak : weak_ptr.t :=
  weak_ptr.mk (Some 1%positive) (storage_of 1%positive).

(** A block with two owners and one weak handle. *)
Definition shared_world : World :=
  mk_World {[1%positive := mk_control_block 2 1 obj_block]} 2%positive
           [Alloc 1%positive].

(** Three owners and a weak handle of one block, reached through copy,
    assignment, move and lock. *)
Definition sharing : list stmt :=
  [Sp_make 0 Built; Sp_copy 1 0; Sp_default 2; Sp_assign 2 1;
   Wp_of_shared 0 2; Sp_move 3 0; Sp_destroy 1; Wp_lock 4 0].

(** After [shared_ptr<T> x(p, d);]. *)
Definition raw_owner : State :=
  mk_State
    (mk_World {[1%positive := new_ptr_block (object_at 7) 3%nat]} 2%positive
              [Alloc 1%positive])
    {[0%nat := shared_ptr.mk (Some 1%positive) (object_at 7)]} ∅.

(** Two handle objects that hold the same block. *)
Definition two_owners : State :=
  mk_State
    (mk_World {[1%positive := mk_control_block 2 0 obj_block]} 2%positive
              [Alloc 1%positive])
    (<[0%nat := shared_ptr.of_obj_block 1%positive]>
       {[1%nat := shared_ptr.of_obj_block 1%positive]}) ∅.

(** A pointee that holds a weak handle [self], as a node that observes
    its parent or itself does: its destructor destroys the member. *)
Definition observer (self : weak_ptr.t) : client :=
  λ _ w, weak_ptr.destroy self w.

(** [struct Node { weak_ptr<Node> self; };
     auto p = make_shared<Node>(); p->self = p;]
    The owner [p] is the handle 0; the member [self] is the weak handle 0. *)
Definition self_observing : list stmt :=
  [Sp_make 0 Built; Wp_default 0; Wp_assign_shared 0 0].

Definition self_observed : State :=
  mk_State
    (mk_World {[1%positive := mk_control_block 1 1 obj_block]} 2%positive
              [Alloc 1%positive])
    {[0%nat := shared_ptr.of_obj_block 1%positive]}
    {[0%nat := weak_ptr.mk (Some 1%positive) (storage_of 1%positive)]}.









(** * Proofs *)

Section refs.
Context {A : Type} (f : A → option loc).
Implicit Types (hs : gmap var A) (b : loc) (x : var) (h : A).
Local Open Scope nat_scope.

Lemma refs_empty b : refs f b ∅ = 0.
Proof. unfold refs. by rewrite map_filter_empty, map_size_empty. Qed.

Lemma refs_delete hs x h b :
  hs !! x = Some h → refs f b (delete x hs) + tick b (f h) = refs f b hs.
Proof.
  intros Hx. unfold refs, tick. rewrite map_filter_delete.
  case_decide as Hb.
  - rewrite map_size_delete_Some.
    + assert (size (filter (λ kv, f kv.2 = Some b) hs) ≠ 0); [|lia].
      apply map_size_ne_0_lookup. exists x, h.
      by apply map_lookup_filter_Some.
    + exists h. by apply map_lookup_filter_Some.
  - rewrite map_size_delete_None; [lia|].
    apply map_lookup_filter_None. right. intros h' Hx'. simpl. congruence.
Qed.

Lemma refs_insert_fresh hs x h b :
  hs !! x = None → refs f b (<[x := h]> hs) = refs f b hs + tick b (f h).
Proof.
  intros Hx.
  rewrite <- (refs_delete (<[x := h]> hs) x h b) by apply lookup_insert_eq.
  by rewrite delete_insert_id.
Qed.

Lemma refs_insert hs x h0 h b :
  hs !! x = Some h0 →
  refs f b (<[x := h]> hs) + tick b (f h0) = refs f b hs + tick b (f h).
Proof.
  intros Hx.
  rewrite <- (refs_delete hs x h0 b Hx).
  rewrite <- (insert_delete_eq hs).
  rewrite refs_insert_fresh by apply lookup_delete_eq. lia.
Qed.

Lemma refs_le_size hs b : refs f b hs ≤ size hs.
Proof. apply map_subseteq_size, map_filter_subseteq. Qed.

Lemma refs_pos hs x h b : hs !! x = Some h → f h = Some b → 0 < refs f b hs.
Proof.
  intros Hx Hb. rewrite <- (refs_delete hs x h b Hx).
  unfold tick. rewrite decide_True by done. lia.
Qed.
End refs.

(** ** What the control block operations compute *)

Lemma size_t_id n : 0 ≤ n ≤ SIZE_MAX → size_t n = n.
Proof. unfold size_t, SIZE_MAX. intros. apply Z.mod_small. lia. Qed.

Lemma dec_strong_ref_eq b c w :
  heap w !! b = Some c →
  0 < strong_ref_ c ≤ SIZE_MAX →
  dec_strong_ref b w = Some
    (if strong_ref_ c =? 1 then
       if weak_ref_ c =? 0 then
         mk_World (delete b (heap w)) (next w)
                  (trace w ++ [Unlink b (disposal_of b c); DeleteThis b])
       else
         mk_World (<[b := set_strong 0 c]> (heap w)) (next w)
                  (trace w ++ [Unlink b (disposal_of b c)])
     else
       mk_World (<[b := set_strong (strong_ref_ c - 1) c]> (heap w)) (next w)
                (trace w)).
Proof.
  intros Hb Hs.
  unfold dec_strong_ref, dec_strong_ref_with, get_strong_ref_count,
    get_weak_ref, unlink_with, inert, delete_this, emit, store_block.
  rewrite Hb. simpl. rewrite size_t_id by lia.
  rewrite lookup_insert_eq. simpl.
  destruct (Z.eqb_spec (strong_ref_ c) 1) as [E|E].
  - rewrite E. simpl. rewrite !lookup_insert_eq. simpl.
    destruct (Z.eqb_spec (weak_ref_ c) 0) as [E'|E']; simpl; [|done].
    by rewrite delete_insert_eq, <- app_assoc.
  - destruct (Z.eqb_spec (strong_ref_ c - 1) 0) as [E'|E']; [lia|]. simpl.
    rewrite lookup_insert_eq. simpl.
    destruct (Z.eqb_spec (strong_ref_ c - 1) 0); [lia|]. done.
Qed.

Lemma dec_weak_ref_eq b c w :
  heap w !! b = Some c →
  0 < weak_ref_ c ≤ SIZE_MAX →
  dec_weak_ref b w = Some
    (if (strong_ref_ c =? 0) && (weak_ref_ c =? 1) then
       mk_World (delete b (heap w)) (next w) (trace w ++ [DeleteThis b])
     else
       mk_World (<[b := set_weak (weak_ref_ c - 1) c]> (heap w)) (next w)
                (trace w)).
Proof.
  intros Hb Hs.
  unfold dec_weak_ref, get_strong_ref_count, get_weak_ref, delete_this,
    store_block.
  rewrite Hb. simpl. rewrite size_t_id by lia.
  rewrite !lookup_insert_eq. simpl.
  destruct (Z.eqb_spec (strong_ref_ c) 0) as [E|E]; simpl; [|done].
  destruct (Z.eqb_spec (weak_ref_ c) 1) as [E'|E'].
  - rewrite E'. simpl. by rewrite delete_insert_eq.
  - destruct (Z.eqb_spec (weak_ref_ c - 1) 0); [lia|]. done.
Qed.

Lemma inc_strong_ref_eq b c w :
  heap w !! b = Some c →
  0 ≤ strong_ref_ c < SIZE_MAX →
  inc_strong_ref b w =
    Some (store_block b (set_strong (strong_ref_ c + 1) c) w).
Proof.
  intros Hb Hs. unfold inc_strong_ref. rewrite Hb. simpl.
  by rewrite size_t_id by lia.
Qed.

Lemma inc_weak_ref_eq b c w :
  heap w !! b = Some c →
  0 ≤ weak_ref_ c < SIZE_MAX →
  inc_weak_ref b w =
    Some (store_block b (set_weak (weak_ref_ c + 1) c) w).
Proof.
  intros Hb Hs. unfold inc_weak_ref. rewrite Hb. simpl.
  by rewrite size_t_id by lia.
Qed.

(** ** Counting events *)

Section count.
Implicit Types (f : event → bool) (tr : list event).
Local Open Scope nat_scope.

Lemma count_app f t1 t2 : count f (t1 ++ t2) = count f t1 + count f t2.
Proof. unfold count. by rewrite filter_app, length_app. Qed.

Lemma count_one f e : count f [e] = if f e then 1 else 0.
Proof.
  unfold count. destruct (f e) eqn:E.
  - by rewrite filter_cons_True.
  - rewrite filter_cons_False; [done|]. by rewrite E.
Qed.

Lemma count_nil f : count f [] = 0.
Proof. done. Qed.

Lemma count_snoc f tr e :
  count f (tr ++ [e]) = count f tr + if f e then 1 else 0.
Proof. by rewrite count_app, count_one. Qed.
End count.

Lemma block_ok_frame w w' sc wc sc' wc' b :
  block_ok w sc wc b →
  heap w' !! b = heap w !! b →
  sc' b = sc b → wc' b = wc b →
  ((b < next w')%positive ↔ (b < next w)%positive) →
  disposals b (trace w') = disposals b (trace w) →
  deallocations b (trace w') = deallocations b (trace w) →
  block_ok w' sc' wc' b.
Proof.
  unfold block_ok. intros H Hh Hs Hw Hn Hd Hf.
  rewrite Hh, Hs, Hw, Hd, Hf.
  destruct (heap w !! b).
  - tauto.
  - destruct H as (? & ? & H). split; [done|]. split; [done|].
    repeat case_decide; tauto.
Qed.

Lemma consistent_ext w sc wc sc' wc' :
  consistent w sc wc →
  (∀ b, sc' b = sc b) → (∀ b, wc' b = wc b) →
  consistent w sc' wc'.
Proof.
  intros [H Ho] Hs Hw. split; [|done].
  intros b. by eapply block_ok_frame.
Qed.

Lemma disposed_first_snoc tr e :
  disposed_first tr →
  (∀ b, e = DeleteThis b → (0 < disposals b tr)%nat) →
  disposed_first (tr ++ [e]).
Proof.
  intros Ho He t1 t2 b Heq.
  destruct (decide (t2 = [])) as [->|Hne].
  - apply app_inj_tail in Heq as [-> ->]. by apply He.
  - destruct (exists_last Hne) as (t2' & e' & ->).
    rewrite app_comm_cons, app_assoc in Heq.
    apply app_inj_tail in Heq as [-> _]. by eapply Ho.
Qed.

Lemma disposals_snoc b tr e :
  disposals b (tr ++ [e]) = (disposals b tr + if is_unlink b e then 1 else 0)%nat.
Proof. apply count_snoc. Qed.

Lemma deallocations_snoc b tr e :
  deallocations b (tr ++ [e]) =
    (deallocations b tr + (if is_delete b e then 1 else 0)
                        + (if is_reclaim b e then 1 else 0))%nat.
Proof. unfold deallocations. rewrite !count_snoc. lia. Qed.

Lemma consistent_live w sc wc b :
  consistent w sc wc → (0 < sc b + wc b)%nat →
  ∃ c, heap w !! b = Some c ∧
       strong_ref_ c = Z.of_nat (sc b) ∧ weak_ref_ c = Z.of_nat (wc b) ∧
       (b < next w)%positive ∧
       disposals b (trace w) = (if decide (sc b = 0%nat) then 1%nat else 0%nat) ∧
       deallocations b (trace w) = 0%nat.
Proof.
  intros [H _] Hpos. specialize (H b). unfold block_ok in H.
  destruct (heap w !! b) as [c|]; [|lia]. exists c. tauto.
Qed.

(** *** The operations of a control block keep the invariant *)

Lemma tick_same b : tick b (Some b) = 1%nat.
Proof. unfold tick. by rewrite decide_True. Qed.

Lemma tick_other b b' : b' ≠ b → tick b' (Some b) = 0%nat.
Proof. intros. unfold tick. rewrite decide_False; congruence. Qed.

Lemma tick_none b : tick b None = 0%nat.
Proof. done. Qed.

Lemma snoc2 {A} (l : list A) x y : l ++ [x; y] = (l ++ [x]) ++ [y].
Proof. by rewrite <- app_assoc. Qed.

Ltac count_events :=
  simpl; rewrite ?snoc2, ?disposals_snoc, ?deallocations_snoc; simpl;
  repeat first
    [ rewrite bool_decide_eq_true_2 by congruence
    | rewrite bool_decide_eq_false_2 by congruence ];
  try lia.

(** A block other than the one operated on keeps its facts. *)
Ltac frame_block Hall :=
  eapply block_ok_frame;
  [ apply Hall
  | simpl; rewrite ?lookup_insert_ne, ?lookup_delete_ne by congruence; done
  | try done
  | try done
  | try done
  | count_events
  | count_events ].

Lemma dec_strong_ref_consistent w sc wc sc' b :
  consistent w sc wc →
  (0 < sc b)%nat → Z.of_nat (sc b) ≤ SIZE_MAX →
  (∀ b', (sc' b' + tick b' (Some b))%nat = sc b') →
  ∃ w', dec_strong_ref b w = Some w' ∧ consistent w' sc' wc ∧ next w' = next w.
Proof.
  intros Hc Hpos Hmax Hsc'.
  destruct (consistent_live w sc wc b Hc) as (c & Hb & Hs & Hk & Hn & Hd & Hf);
    [lia|].
  rewrite (dec_strong_ref_eq b c w Hb) by lia.
  eexists; split; [done|].
  assert (Hsame : ∀ b', b' ≠ b → sc' b' = sc b').
  { intros b' Hne. specialize (Hsc' b'). rewrite tick_other in Hsc' by done. lia. }
  assert (Hb' : S (sc' b) = sc b).
  { specialize (Hsc' b). rewrite tick_same in Hsc'. lia. }
  rewrite decide_False in Hd by lia.
  destruct Hc as [Hall Hord].
  destruct (Z.eqb_spec (strong_ref_ c) 1) as [E|E];
    [destruct (Z.eqb_spec (weak_ref_ c) 0) as [E'|E']|]; simpl.
  - split; [split|done].
    + intros b'. destruct (decide (b' = b)) as [->|Hne].
      * unfold block_ok. simpl. rewrite lookup_delete_eq.
        rewrite decide_True by done.
        repeat split; count_events.
      * frame_block Hall. by apply Hsame.
    + simpl. rewrite snoc2. apply disposed_first_snoc.
      * apply disposed_first_snoc; [done|]. intros; discriminate.
      * intros b' [= <-]. count_events.
  - split; [split|done].
    + intros b'. destruct (decide (b' = b)) as [->|Hne].
      * unfold block_ok. simpl. rewrite lookup_insert_eq. simpl.
        rewrite decide_True by lia. repeat split; count_events.
      * frame_block Hall. by apply Hsame.
    + simpl. apply disposed_first_snoc; [done|]. intros; discriminate.
  - split; [split|done].
    + intros b'. destruct (decide (b' = b)) as [->|Hne].
      * unfold block_ok. simpl. rewrite lookup_insert_eq. simpl.
        rewrite decide_False by lia. repeat split; count_events.
      * frame_block Hall. by apply Hsame.
    + done.
Qed.

Lemma dec_weak_ref_consistent w sc wc wc' b :
  consistent w sc wc →
  (0 < wc b)%nat → Z.of_nat (wc b) ≤ SIZE_MAX →
  (∀ b', (wc' b' + tick b' (Some b))%nat = wc b') →
  ∃ w', dec_weak_ref b w = Some w' ∧ consistent w' sc wc' ∧ next w' = next w.
Proof.
  intros Hc Hpos Hmax Hwc'.
  destruct (consistent_live w sc wc b Hc) as (c & Hb & Hs & Hk & Hn & Hd & Hf);
    [lia|].
  rewrite (dec_weak_ref_eq b c w Hb) by lia.
  eexists; split; [done|].
  assert (Hsame : ∀ b', b' ≠ b → wc' b' = wc b').
  { intros b' Hne. specialize (Hwc' b'). rewrite tick_other in Hwc' by done. lia. }
  assert (Hb' : S (wc' b) = wc b).
  { specialize (Hwc' b). rewrite tick_same in Hwc'. lia. }
  destruct Hc as [Hall Hord].
  destruct (Z.eqb_spec (strong_ref_ c) 0) as [E|E];
    [destruct (Z.eqb_spec (weak_ref_ c) 1) as [E'|E']|]; simpl.
  - rewrite decide_True in Hd by lia.
    split; [split|done].
    + intros b'. destruct (decide (b' = b)) as [->|Hne].
      * unfold block_ok. simpl. rewrite lookup_delete_eq.
        rewrite decide_True by done. repeat split; count_events.
      * frame_block Hall. by apply Hsame.
    + simpl. apply disposed_first_snoc; [done|]. intros b' [= <-]. lia.
  - split; [split|done].
    + intros b'. destruct (decide (b' = b)) as [->|Hne].
      * unfold block_ok. simpl. rewrite lookup_insert_eq. simpl.
        repeat split; count_events.
      * frame_block Hall. by apply Hsame.
    + done.
  - split; [split|done].
    + intros b'. destruct (decide (b' = b)) as [->|Hne].
      * unfold block_ok. simpl. rewrite lookup_insert_eq. simpl.
        repeat split; count_events.
      * frame_block Hall. by apply Hsame.
    + done.
Qed.

Lemma inc_strong_ref_consistent w sc wc sc' b :
  consistent w sc wc →
  (0 < sc b)%nat → Z.of_nat (sc b) < SIZE_MAX →
  (∀ b', sc' b' = (sc b' + tick b' (Some b))%nat) →
  ∃ w', inc_strong_ref b w = Some w' ∧ consistent w' sc' wc ∧
        next w' = next w ∧ trace w' = trace w.
Proof.
  intros Hc Hpos Hmax Hsc'.
  destruct (consistent_live w sc wc b Hc) as (c & Hb & Hs & Hk & Hn & Hd & Hf);
    [lia|].
  rewrite (inc_strong_ref_eq b c w Hb) by lia.
  eexists; split; [done|].
  assert (Hsame : ∀ b', b' ≠ b → sc' b' = sc b').
  { intros b' Hne. rewrite Hsc', tick_other by done. lia. }
  assert (Hb' : sc' b = S (sc b)).
  { rewrite Hsc', tick_same. lia. }
  destruct Hc as [Hall Hord].
  split; [split|done]; [|done].
  intros b'. destruct (decide (b' = b)) as [->|Hne].
  - unfold block_ok. simpl. rewrite lookup_insert_eq. simpl.
    rewrite decide_False in Hd by lia. rewrite decide_False by lia.
    repeat split; count_events.
  - frame_block Hall. by apply Hsame.
Qed.

Lemma inc_weak_ref_consistent w sc wc wc' b :
  consistent w sc wc →
  (0 < sc b + wc b)%nat → Z.of_nat (wc b) < SIZE_MAX →
  (∀ b', wc' b' = (wc b' + tick b' (Some b))%nat) →
  ∃ w', inc_weak_ref b w = Some w' ∧ consistent w' sc wc' ∧
        next w' = next w ∧ trace w' = trace w.
Proof.
  intros Hc Hpos Hmax Hwc'.
  destruct (consistent_live w sc wc b Hc) as (c & Hb & Hs & Hk & Hn & Hd & Hf);
    [lia|].
  rewrite (inc_weak_ref_eq b c w Hb) by lia.
  eexists; split; [done|].
  assert (Hsame : ∀ b', b' ≠ b → wc' b' = wc b').
  { intros b' Hne. rewrite Hwc', tick_other by done. lia. }
  assert (Hb' : wc' b = S (wc b)).
  { rewrite Hwc', tick_same. lia. }
  destruct Hc as [Hall Hord].
  split; [split|done]; [|done].
  intros b'. destruct (decide (b' = b)) as [->|Hne].
  - unfold block_ok. simpl. rewrite lookup_insert_eq. simpl.
    repeat split; count_events.
  - frame_block Hall. by apply Hsame.
Qed.

(** A block at the allocator cursor has never been seen. *)
Lemma consistent_unborn w sc wc :
  consistent w sc wc →
  heap w !! next w = None ∧ sc (next w) = 0%nat ∧ wc (next w) = 0%nat ∧
  deallocations (next w) (trace w) = 0%nat ∧
  disposals (next w) (trace w) = 0%nat.
Proof.
  intros [Hall _]. specialize (Hall (next w)). unfold block_ok in Hall.
  destruct (heap w !! next w).
  - lia.
  - rewrite decide_False in Hall by lia. tauto.
Qed.

Lemma new_expr_built_consistent w sc wc sc' c :
  consistent w sc wc →
  strong_ref_ c = 1 → weak_ref_ c = 0 →
  (∀ b', sc' b' = (sc b' + tick b' (Some (next w)))%nat) →
  consistent (new_expr Built c w).2 sc' wc.
Proof.
  intros Hc Hs Hk Hsc'.
  destruct (consistent_unborn w sc wc Hc) as (Hb & Hs0 & Hk0 & Hf & Hd).
  destruct Hc as [Hall Hord]. split.
  - intros b'. destruct (decide (b' = next w)) as [->|Hne].
    + unfold block_ok. simpl. rewrite lookup_insert_eq.
      rewrite Hsc', tick_same, Hs0. simpl.
      repeat split; count_events.
    + frame_block Hall.
      * rewrite Hsc', tick_other by done. lia.
      * simpl. lia.
  - simpl. apply disposed_first_snoc; [done|]. intros; discriminate.
Qed.

Lemma new_expr_threw_consistent w sc wc c :
  consistent w sc wc →
  consistent (new_expr CtorThrew c w).2 sc wc.
Proof.
  intros Hc.
  destruct (consistent_unborn w sc wc Hc) as (Hb & Hs0 & Hk0 & Hf & Hd).
  destruct Hc as [Hall Hord]. split.
  - intros b'. destruct (decide (b' = next w)) as [->|Hne].
    + unfold block_ok. simpl. rewrite Hb, Hs0, Hk0.
      rewrite decide_True by lia. repeat split; count_events.
    + frame_block Hall. simpl. lia.
  - simpl. rewrite snoc2.
    apply disposed_first_snoc; [|intros; discriminate].
    apply disposed_first_snoc; [done|]. intros; discriminate.
Qed.

Lemma rollback_consistent w sc wc d p :
  consistent w sc wc → consistent (emit (Rollback d p) w) sc wc.
Proof.
  intros [Hall Hord]. split.
  - intros b'. frame_block Hall.
  - simpl. apply disposed_first_snoc; [done|]. intros; discriminate.
Qed.

Lemma sp_copy_acquire other w :
  shared_ptr.copy other w =
    w' ← acquire_strong (shared_ptr.cb other) w;
    Some (shared_ptr.mk (shared_ptr.cb other) (shared_ptr.ptr other), w').
Proof. unfold shared_ptr.copy. simpl. by destruct (shared_ptr.cb other). Qed.

Lemma sp_alias_acquire other p w :
  shared_ptr.alias other p w =
    w' ← acquire_strong (shared_ptr.cb other) w;
    Some (shared_ptr.mk (shared_ptr.cb other) p, w').
Proof. unfold shared_ptr.alias. simpl. by destruct (shared_ptr.cb other). Qed.

Lemma sp_destroy_release h w :
  shared_ptr.destroy h w = release_strong (shared_ptr.cb h) w.
Proof. done. Qed.

Lemma wp_copy_acquire other w :
  weak_ptr.copy other w =
    w' ← acquire_weak (weak_ptr.cb other) w;
    Some (weak_ptr.mk (weak_ptr.cb other) (weak_ptr.ptr other), w').
Proof. unfold weak_ptr.copy. simpl. by destruct (weak_ptr.cb other). Qed.

Lemma wp_of_shared_acquire other w :
  weak_ptr.of_shared other w =
    w' ← acquire_weak (shared_ptr.cb other) w;
    Some (weak_ptr.mk (shared_ptr.cb other) (shared_ptr.ptr other), w').
Proof. unfold weak_ptr.of_shared. simpl. by destruct (shared_ptr.cb other). Qed.

Lemma wp_destroy_release h w :
  weak_ptr.destroy h w = release_weak (weak_ptr.cb h) w.
Proof. done. Qed.

Lemma acquire_strong_consistent w sc wc sc' r :
  consistent w sc wc →
  (∀ b, r = Some b → (0 < sc b)%nat ∧ Z.of_nat (sc b) < SIZE_MAX) →
  (∀ b', sc' b' = (sc b' + tick b' r)%nat) →
  ∃ w', acquire_strong r w = Some w' ∧ consistent w' sc' wc ∧
        next w' = next w ∧ trace w' = trace w.
Proof.
  intros Hc Hr Hsc'. destruct r as [b|]; simpl.
  - destruct (Hr b eq_refl). by apply inc_strong_ref_consistent with sc.
  - exists w. split; [done|]. split; [|done].
    eapply consistent_ext; [done| |done].
    intros b. rewrite Hsc', tick_none. lia.
Qed.

Lemma release_strong_consistent w sc wc sc' r :
  consistent w sc wc →
  (∀ b, r = Some b → (0 < sc b)%nat ∧ Z.of_nat (sc b) ≤ SIZE_MAX) →
  (∀ b', (sc' b' + tick b' r)%nat = sc b') →
  ∃ w', release_strong r w = Some w' ∧ consistent w' sc' wc ∧
        next w' = next w.
Proof.
  intros Hc Hr Hsc'. destruct r as [b|]; simpl.
  - destruct (Hr b eq_refl). by apply dec_strong_ref_consistent with sc.
  - exists w. split; [done|]. split; [|done].
    eapply consistent_ext; [done| |done].
    intros b. rewrite <- Hsc', tick_none. lia.
Qed.

Lemma acquire_weak_consistent w sc wc wc' r :
  consistent w sc wc →
  (∀ b, r = Some b → (0 < sc b + wc b)%nat ∧ Z.of_nat (wc b) < SIZE_MAX) →
  (∀ b', wc' b' = (wc b' + tick b' r)%nat) →
  ∃ w', acquire_weak r w = Some w' ∧ consistent w' sc wc' ∧
        next w' = next w ∧ trace w' = trace w.
Proof.
  intros Hc Hr Hwc'. destruct r as [b|]; simpl.
  - destruct (Hr b eq_refl). by apply inc_weak_ref_consistent with wc.
  - exists w. split; [done|]. split; [|done].
    eapply consistent_ext; [done|done|].
    intros b. rewrite Hwc', tick_none. lia.
Qed.

Lemma release_weak_consistent w sc wc wc' r :
  consistent w sc wc →
  (∀ b, r = Some b → (0 < wc b)%nat ∧ Z.of_nat (wc b) ≤ SIZE_MAX) →
  (∀ b', (wc' b' + tick b' r)%nat = wc b') →
  ∃ w', release_weak r w = Some w' ∧ consistent w' sc wc' ∧
        next w' = next w.
Proof.
  intros Hc Hr Hwc'. destruct r as [b|]; simpl.
  - destruct (Hr b eq_refl). by apply dec_weak_ref_consistent with wc.
  - exists w. split; [done|]. split; [|done].
    eapply consistent_ext; [done|done|].
    intros b. rewrite <- Hwc', tick_none. lia.
Qed.

(** ** Statements keep the state well-formed *)

Section refs_update.
Context {A : Type} (f : A → option loc).
Implicit Types (hs : gmap var A) (b : loc) (x : var) (h : A).
Local Open Scope nat_scope.

Lemma refs_ge_tick hs x h b : hs !! x = Some h → tick b (f h) ≤ refs f b hs.
Proof. intros Hx. rewrite <- (refs_delete f hs x h b Hx). lia. Qed.

Lemma refs_insert_eq hs x h0 h b :
  hs !! x = Some h0 →
  refs f b (<[x := h]> hs) = refs f b hs - tick b (f h0) + tick b (f h).
Proof.
  intros Hx. pose proof (refs_insert f hs x h0 h b Hx).
  pose proof (refs_ge_tick hs x h0 b Hx). lia.
Qed.

Lemma refs_delete_eq hs x h0 b :
  hs !! x = Some h0 →
  refs f b (delete x hs) = refs f b hs - tick b (f h0).
Proof. intros Hx. pose proof (refs_delete f hs x h0 b Hx). lia. Qed.
End refs_update.

Ltac open_state s :=
  intros Hwf Hroom Hsc; destruct s as [w sp wp];
  unfold wf, room, grows, strong_handles, weak_handles, scoped in *;
  simpl in *;
  repeat match goal with
  | H : _ && _ = true |- _ => apply andb_true_iff in H as [? ?]
  | H : unused _ _ = true |- _ => apply bool_decide_eq_true in H
  | H : declared _ _ = true |- _ => apply bool_decide_eq_true in H
  end.

(** Names the object that [x] denotes. *)
Ltac object x h H :=
  match goal with Hd : is_Some (_ !! x) |- _ => destruct Hd as [h H] end.

(** Adds a fact to the context unless it is there already. *)
Ltac learn H :=
  let T := type of H in
  lazymatch goal with
  | _ : T |- _ => fail
  | _ => pose proof H
  end.

Ltac refs_fact :=
  match goal with
  | Hx : ?m !! ?x = None |- _ =>
      match goal with
      | |- context [refs ?f ?b (<[x := ?h]> m)] =>
          learn (refs_insert_fresh f m x h b Hx)
      | _ : context [refs ?f ?b (<[x := ?h]> m)] |- _ =>
          learn (refs_insert_fresh f m x h b Hx)
      end
  | Hx : ?m !! ?x = Some ?h0 |- _ =>
      match goal with
      | |- context [refs ?f ?b (<[x := ?h]> m)] =>
          learn (refs_insert_eq f m x h0 h b Hx)
      | _ : context [refs ?f ?b (<[x := ?h]> m)] |- _ =>
          learn (refs_insert_eq f m x h0 h b Hx)
      | |- context [refs ?f ?b (delete x m)] =>
          learn (refs_delete_eq f m x h0 b Hx)
      | _ : context [refs ?f ?b (delete x m)] |- _ =>
          learn (refs_delete_eq f m x h0 b Hx)
      | |- context [refs ?f ?b m] => learn (refs_ge_tick f m x h0 b Hx)
      | _ : context [refs ?f ?b m] |- _ => learn (refs_ge_tick f m x h0 b Hx)
      end
  end.

(** Relates the counts of an updated frame to those of the frame it was
    made from, and leaves the rest to arithmetic. *)
Ltac count_refs :=
  repeat refs_fact;
  unfold tick in *; simpl in *;
  repeat case_decide; simplify_eq; try lia.

Ltac size_frames :=
  rewrite ?map_size_insert, ?map_size_delete;
  repeat match goal with
  | H : ?m !! ?x = _ |- context [?m !! ?x] => rewrite H
  end;
  simpl; lia.

Lemma exec_Sp_default_wf x s :
  wf s → room 1 s → scoped (Sp_default x) s = true →
  ∃ s', exec (Sp_default x) s = Some s' ∧ wf s' ∧ grows s s'.
Proof.
  open_state s. unfold fresh. rewrite Hsc. simpl.
  eexists; split; [done|]; simpl. split; [|size_frames].
  eapply consistent_ext; [done| |done]. intros b. count_refs.
Qed.

Lemma exec_Sp_nullptr_wf x s :
  wf s → room 1 s → scoped (Sp_nullptr x) s = true →
  ∃ s', exec (Sp_nullptr x) s = Some s' ∧ wf s' ∧ grows s s'.
Proof.
  open_state s. unfold fresh. rewrite Hsc. simpl.
  eexists; split; [done|]; simpl. split; [|size_frames].
  eapply consistent_ext; [done| |done]. intros b. count_refs.
Qed.

Lemma exec_Sp_raw_wf x p d o s :
  wf s → room 1 s → scoped (Sp_raw x p d o) s = true →
  ∃ s', exec (Sp_raw x p d o) s = Some s' ∧ wf s' ∧ grows s s'.
Proof.
  open_state s. unfold fresh. rewrite Hsc. simpl.
  unfold shared_ptr.of_raw. destruct o.
  - eexists; split; [done|]; simpl. split; [|size_frames].
    apply (new_expr_built_consistent _ _ _ _ (new_ptr_block p d) Hwf);
      [done|done|].
    intros b. count_refs.
  - eexists; split; [done|]; simpl. split; [|lia].
    by apply rollback_consistent.
  - eexists; split; [done|]; simpl. split; [|lia].
    apply rollback_consistent.
    by apply (new_expr_threw_consistent _ _ _ (new_ptr_block p d)).
Qed.

Lemma exec_Sp_make_wf x o s :
  wf s → room 1 s → scoped (Sp_make x o) s = true →
  ∃ s', exec (Sp_make x o) s = Some s' ∧ wf s' ∧ grows s s'.
Proof.
  open_state s. unfold fresh. rewrite Hsc. simpl.
  unfold make_shared. destruct o.
  - eexists; split; [done|]; simpl. split; [|size_frames].
    apply (new_expr_built_consistent _ _ _ _ new_obj_block Hwf); [done|done|].
    intros b. count_refs.
  - eexists; split; [done|]; simpl. split; [done|lia].
  - eexists; split; [done|]; simpl. split; [|lia].
    by apply (new_expr_threw_consistent _ _ _ new_obj_block).
Qed.

Lemma exec_Sp_alias_wf x y p s :
  wf s → room 1 s → scoped (Sp_alias x y p) s = true →
  ∃ s', exec (Sp_alias x y p) s = Some s' ∧ wf s' ∧ grows s s'.
Proof.
  open_state s. object y o Hy. unfold fresh.
  repeat match goal with H : sp !! _ = _ |- _ => rewrite H; simpl end.
  rewrite sp_alias_acquire.
  destruct (acquire_strong_consistent w _ _
    (λ b, refs shared_ptr.cb b (<[x := shared_ptr.mk (shared_ptr.cb o) p]> sp))
    (shared_ptr.cb o) Hwf) as (w' & -> & Hc' & _).
  - intros b Hb. split; [by eapply refs_pos|].
    pose proof (refs_le_size shared_ptr.cb sp b). lia.
  - intros b. count_refs.
  - simpl. eexists; split; [done|]; simpl. split; [done|size_frames].
Qed.

Lemma exec_Sp_copy_wf x y s :
  wf s → room 1 s → scoped (Sp_copy x y) s = true →
  ∃ s', exec (Sp_copy x y) s = Some s' ∧ wf s' ∧ grows s s'.
Proof.
  open_state s. object y o Hy. unfold fresh.
  repeat match goal with H : sp !! _ = _ |- _ => rewrite H; simpl end.
  rewrite sp_copy_acquire.
  destruct (acquire_strong_consistent w _ _
    (λ b, refs shared_ptr.cb b
            (<[x := shared_ptr.mk (shared_ptr.cb o) (shared_ptr.ptr o)]> sp))
    (shared_ptr.cb o) Hwf) as (w' & -> & Hc' & _).
  - intros b Hb. split; [by eapply refs_pos|].
    pose proof (refs_le_size shared_ptr.cb sp b). lia.
  - intros b. count_refs.
  - simpl. eexists; split; [done|]; simpl. split; [done|size_frames].
Qed.

Lemma exec_Sp_move_wf x y s :
  wf s → room 1 s → scoped (Sp_move x y) s = true →
  ∃ s', exec (Sp_move x y) s = Some s' ∧ wf s' ∧ grows s s'.
Proof.
  open_state s. object y o Hy. unfold fresh.
  repeat match goal with H : sp !! _ = _ |- _ => rewrite H; simpl end.
  assert (x ≠ y) by congruence.
  assert (<[y := shared_ptr.mk None nullptr]> sp !! x = None)
    by by rewrite lookup_insert_ne.
  eexists; split; [done|]; simpl. split; [|size_frames].
  eapply consistent_ext; [done| |done]. intros b. count_refs.
Qed.

Lemma exec_Sp_destroy_wf x s :
  wf s → room 1 s → scoped (Sp_destroy x) s = true →
  ∃ s', exec (Sp_destroy x) s = Some s' ∧ wf s' ∧ grows s s'.
Proof.
  open_state s. object x h Hx.
  repeat match goal with H : sp !! _ = _ |- _ => rewrite H; simpl end.
  rewrite sp_destroy_release.
  destruct (release_strong_consistent w _ _
    (λ b, refs shared_ptr.cb b (delete x sp)) (shared_ptr.cb h) Hwf)
    as (w' & -> & Hc' & _).
  - intros b Hb. split; [by eapply refs_pos|].
    pose proof (refs_le_size shared_ptr.cb sp b). lia.
  - intros b. count_refs.
  - simpl. eexists; split; [done|]; simpl. split; [done|size_frames].
Qed.

Lemma exec_Sp_reset_wf x s :
  wf s → room 1 s → scoped (Sp_reset x) s = true →
  ∃ s', exec (Sp_reset x) s = Some s' ∧ wf s' ∧ grows s s'.
Proof.
  open_state s. object x h Hx. unfold shared_ptr.reset.
  repeat match goal with H : sp !! _ = _ |- _ => rewrite H; simpl end.
  rewrite sp_destroy_release. simpl.
  destruct (release_strong_consistent w _ _
    (λ b, refs shared_ptr.cb b (<[x := shared_ptr.mk None nullptr]> sp))
    (shared_ptr.cb h) Hwf) as (w' & -> & Hc' & _).
  - intros b Hb. split; [by eapply refs_pos|].
    pose proof (refs_le_size shared_ptr.cb sp b). lia.
  - intros b. count_refs.
  - simpl. eexists; split; [done|]; simpl. split; [done|size_frames].
Qed.

Lemma exec_Sp_swap_wf x y s :
  wf s → room 1 s → scoped (Sp_swap x y) s = true →
  ∃ s', exec (Sp_swap x y) s = Some s' ∧ wf s' ∧ grows s s'.
Proof.
  open_state s. object x h Hx. object y o Hy. unfold shared_ptr.swap_objects.
  repeat match goal with H : sp !! _ = _ |- _ => rewrite H; simpl end.
  eexists; split; [done|]; simpl.
  destruct (decide (x = y)) as [->|Hne].
  - simplify_eq.
    assert (<[y := shared_ptr.mk (shared_ptr.cb h) (shared_ptr.ptr h)]> sp !! y
            = Some (shared_ptr.mk (shared_ptr.cb h) (shared_ptr.ptr h)))
      by apply lookup_insert_eq.
    split.
    + eapply consistent_ext; [done| |done]. intros b. count_refs.
    + rewrite !map_size_insert, lookup_insert_eq, Hx. simpl. lia.
  - assert (<[x := shared_ptr.mk (shared_ptr.cb o) (shared_ptr.ptr o)]> sp !! y
            = Some o) by by rewrite lookup_insert_ne.
    split.
    + eapply consistent_ext; [done| |done]. intros b. count_refs.
    + rewrite !map_size_insert, lookup_insert_ne, Hx, Hy by done. simpl. lia.
Qed.

Lemma exec_Sp_assign_wf x y s :
  wf s → room 1 s → scoped (Sp_assign x y) s = true →
  ∃ s', exec (Sp_assign x y) s = Some s' ∧ wf s' ∧ grows s s'.
Proof.
  open_state s. object x h Hx. object y o Hy. unfold shared_ptr.assign.
  case_bool_decide as Hne; rewrite ?Hx, ?Hy; simpl.
  - rewrite sp_copy_acquire.
    destruct (acquire_strong_consistent w _ _
      (λ b, refs shared_ptr.cb b sp + tick b (shared_ptr.cb o))%nat
      (shared_ptr.cb o) Hwf) as (w1 & -> & Hc1 & _).
    { intros b Hb. split; [by eapply refs_pos|].
      pose proof (refs_le_size shared_ptr.cb sp b). lia. }
    { done. }
    simpl. rewrite sp_destroy_release. simpl.
    destruct (release_strong_consistent w1 _ _
      (λ b, refs shared_ptr.cb b
              (<[x := shared_ptr.mk (shared_ptr.cb o) (shared_ptr.ptr o)]> sp))
      (shared_ptr.cb h) Hc1) as (w2 & -> & Hc2 & _).
    { intros b Hb. pose proof (refs_pos shared_ptr.cb sp x h b Hx Hb).
      pose proof (refs_le_size shared_ptr.cb sp b).
      unfold tick. case_decide; lia. }
    { intros b. count_refs. }
    simpl. eexists; split; [done|]; simpl. split; [done|size_frames].
  - eexists; split; [done|]; simpl. split; [done|lia].
Qed.

Lemma exec_Sp_move_assign_wf x y s :
  wf s → room 1 s → scoped (Sp_move_assign x y) s = true →
  ∃ s', exec (Sp_move_assign x y) s = Some s' ∧ wf s' ∧ grows s s'.
Proof.
  open_state s. object x h Hx. object y o Hy. unfold shared_ptr.move_assign.
  case_bool_decide as Hne; rewrite ?Hx, ?Hy; simpl.
  - assert (Hx' : <[y := shared_ptr.mk None nullptr]> sp !! x = Some h)
      by by rewrite lookup_insert_ne.
    rewrite Hx'. simpl. rewrite sp_destroy_release. simpl.
    destruct (release_strong_consistent w _ _
      (λ b, refs shared_ptr.cb b
              (<[x := shared_ptr.mk (shared_ptr.cb o) (shared_ptr.ptr o)]>
                 (<[y := shared_ptr.mk None nullptr]> sp)))
      (shared_ptr.cb h) Hwf) as (w2 & -> & Hc2 & _).
    { intros b Hb. split; [exact (refs_pos _ _ x h b Hx Hb)|].
      pose proof (refs_le_size shared_ptr.cb sp b). lia. }
    { intros b. count_refs. }
    simpl. eexists; split; [done|]; simpl. split; [done|].
    rewrite !map_size_insert, Hx', Hy. simpl. lia.
  - eexists; split; [done|]; simpl. split; [done|lia].
Qed.

Lemma exec_Sp_reset_raw_wf x p d o s :
  wf s → room 1 s → scoped (Sp_reset_raw x p d o) s = true →
  ∃ s', exec (Sp_reset_raw x p d o) s = Some s' ∧ wf s' ∧ grows s s'.
Proof.
  open_state s. object x h Hx. unfold shared_ptr.reset_raw.
  rewrite Hx. simpl. unfold shared_ptr.of_raw. destruct o.
  - pose proof (new_expr_built_consistent w _ _
      (λ b, refs shared_ptr.cb b sp + tick b (Some (next w)))%nat
      (new_ptr_block p d) Hwf eq_refl eq_refl (λ _, eq_refl)) as Hc1.
    simpl in *. rewrite sp_destroy_release. simpl.
    destruct (release_strong_consistent _ _ _
      (λ b, refs shared_ptr.cb b (<[x := shared_ptr.mk (Some (next w)) p]> sp))
      (shared_ptr.cb h) Hc1) as (w2 & -> & Hc2 & _).
    { intros b Hb. pose proof (refs_pos shared_ptr.cb sp x h b Hx Hb).
      pose proof (refs_le_size shared_ptr.cb sp b).
      unfold tick. case_decide; lia. }
    { intros b. count_refs. }
    simpl. eexists; split; [done|]; simpl. split; [done|size_frames].
  - eexists; split; [done|]; simpl. split; [|lia].
    by apply rollback_consistent.
  - eexists; split; [done|]; simpl. split; [|lia].
    apply rollback_consistent.
    by apply (new_expr_threw_consistent _ _ _ (new_ptr_block p d)).
Qed.

Lemma exec_Wp_default_wf x s :
  wf s → room 1 s → scoped (Wp_default x) s = true →
  ∃ s', exec (Wp_default x) s = Some s' ∧ wf s' ∧ grows s s'.
Proof.
  open_state s. unfold fresh. rewrite Hsc. simpl.
  eexists; split; [done|]; simpl. split; [|size_frames].
  eapply consistent_ext; [done|done|]. intros b. count_refs.
Qed.

Lemma exec_Wp_copy_wf x y s :
  wf s → room 1 s → scoped (Wp_copy x y) s = true →
  ∃ s', exec (Wp_copy x y) s = Some s' ∧ wf s' ∧ grows s s'.
Proof.
  open_state s. object y o Hy. unfold fresh.
  repeat match goal with H : wp !! _ = _ |- _ => rewrite H; simpl end.
  rewrite wp_copy_acquire.
  destruct (acquire_weak_consistent w _ _
    (λ b, refs weak_ptr.cb b
            (<[x := weak_ptr.mk (weak_ptr.cb o) (weak_ptr.ptr o)]> wp))
    (weak_ptr.cb o) Hwf) as (w' & -> & Hc' & _).
  - intros b Hb. pose proof (refs_pos weak_ptr.cb wp y o b Hy Hb).
    pose proof (refs_le_size weak_ptr.cb wp b). lia.
  - intros b. count_refs.
  - simpl. eexists; split; [done|]; simpl. split; [done|size_frames].
Qed.

Lemma exec_Wp_move_wf x y s :
  wf s → room 1 s → scoped (Wp_move x y) s = true →
  ∃ s', exec (Wp_move x y) s = Some s' ∧ wf s' ∧ grows s s'.
Proof.
  open_state s. object y o Hy. unfold fresh.
  repeat match goal with H : wp !! _ = _ |- _ => rewrite H; simpl end.
  assert (x ≠ y) by congruence.
  assert (<[y := weak_ptr.mk None nullptr]> wp !! x = None)
    by by rewrite lookup_insert_ne.
  eexists; split; [done|]; simpl. split; [|size_frames].
  eapply consistent_ext; [done|done|]. intros b. count_refs.
Qed.

Lemma exec_Wp_of_shared_wf x y s :
  wf s → room 1 s → scoped (Wp_of_shared x y) s = true →
  ∃ s', exec (Wp_of_shared x y) s = Some s' ∧ wf s' ∧ grows s s'.
Proof.
  open_state s. object y o Hy. unfold fresh.
  repeat match goal with H : _ !! _ = _ |- _ => rewrite H; simpl end.
  rewrite wp_of_shared_acquire.
  destruct (acquire_weak_consistent w _ _
    (λ b, refs weak_ptr.cb b
            (<[x := weak_ptr.mk (shared_ptr.cb o) (shared_ptr.ptr o)]> wp))
    (shared_ptr.cb o) Hwf) as (w' & -> & Hc' & _).
  - intros b Hb. pose proof (refs_pos shared_ptr.cb sp y o b Hy Hb).
    pose proof (refs_le_size weak_ptr.cb wp b). lia.
  - intros b. count_refs.
  - simpl. eexists; split; [done|]; simpl. split; [done|size_frames].
Qed.

Lemma exec_Wp_destroy_wf x s :
  wf s → room 1 s → scoped (Wp_destroy x) s = true →
  ∃ s', exec (Wp_destroy x) s = Some s' ∧ wf s' ∧ grows s s'.
Proof.
  open_state s. object x h Hx.
  repeat match goal with H : wp !! _ = _ |- _ => rewrite H; simpl end.
  rewrite wp_destroy_release.
  destruct (release_weak_consistent w _ _
    (λ b, refs weak_ptr.cb b (delete x wp)) (weak_ptr.cb h) Hwf)
    as (w' & -> & Hc' & _).
  - intros b Hb. split; [exact (refs_pos _ _ x h b Hx Hb)|].
    pose proof (refs_le_size weak_ptr.cb wp b). lia.
  - intros b. count_refs.
  - simpl. eexists; split; [done|]; simpl. split; [done|size_frames].
Qed.

Lemma exec_Wp_swap_wf x y s :
  wf s → room 1 s → scoped (Wp_swap x y) s = true →
  ∃ s', exec (Wp_swap x y) s = Some s' ∧ wf s' ∧ grows s s'.
Proof.
  open_state s. object x h Hx. object y o Hy. unfold weak_ptr.swap_objects.
  repeat match goal with H : wp !! _ = _ |- _ => rewrite H; simpl end.
  eexists; split; [done|]; simpl.
  destruct (decide (x = y)) as [->|Hne].
  - simplify_eq.
    assert (<[y := weak_ptr.mk (weak_ptr.cb h) (weak_ptr.ptr h)]> wp !! y
            = Some (weak_ptr.mk (weak_ptr.cb h) (weak_ptr.ptr h)))
      by apply lookup_insert_eq.
    split.
    + eapply consistent_ext; [done|done|]. intros b. count_refs.
    + rewrite !map_size_insert, lookup_insert_eq, Hx. simpl. lia.
  - assert (<[x := weak_ptr.mk (weak_ptr.cb o) (weak_ptr.ptr o)]> wp !! y
            = Some o) by by rewrite lookup_insert_ne.
    split.
    + eapply consistent_ext; [done|done|]. intros b. count_refs.
    + rewrite !map_size_insert, lookup_insert_ne, Hx, Hy by done. simpl. lia.
Qed.

Lemma exec_Wp_assign_wf x y s :
  wf s → room 1 s → scoped (Wp_assign x y) s = true →
  ∃ s', exec (Wp_assign x y) s = Some s' ∧ wf s' ∧ grows s s'.
Proof.
  open_state s. object x h Hx. object y o Hy. unfold weak_ptr.assign.
  case_bool_decide as Hne; rewrite ?Hx, ?Hy; simpl.
  - rewrite wp_copy_acquire.
    destruct (acquire_weak_consistent w _ _
      (λ b, refs weak_ptr.cb b wp + tick b (weak_ptr.cb o))%nat
      (weak_ptr.cb o) Hwf) as (w1 & -> & Hc1 & _).
    { intros b Hb. pose proof (refs_pos weak_ptr.cb wp y o b Hy Hb).
      pose proof (refs_le_size weak_ptr.cb wp b). lia. }
    { done. }
    simpl. rewrite wp_destroy_release. simpl.
    destruct (release_weak_consistent w1 _ _
      (λ b, refs weak_ptr.cb b
              (<[x := weak_ptr.mk (weak_ptr.cb o) (weak_ptr.ptr o)]> wp))
      (weak_ptr.cb h) Hc1) as (w2 & -> & Hc2 & _).
    { intros b Hb. pose proof (refs_pos weak_ptr.cb wp x h b Hx Hb).
      pose proof (refs_le_size weak_ptr.cb wp b).
      unfold tick. case_decide; lia. }
    { intros b. count_refs. }
    simpl. eexists; split; [done|]; simpl. split; [done|size_frames].
  - eexists; split; [done|]; simpl. split; [done|lia].
Qed.

Lemma exec_Wp_move_assign_wf x y s :
  wf s → room 1 s → scoped (Wp_move_assign x y) s = true →
  ∃ s', exec (Wp_move_assign x y) s = Some s' ∧ wf s' ∧ grows s s'.
Proof.
  open_state s. object x h Hx. object y o Hy. unfold weak_ptr.move_assign.
  case_bool_decide as Hne; rewrite ?Hx, ?Hy; simpl.
  - assert (Hx' : <[y := weak_ptr.mk None nullptr]> wp !! x = Some h)
      by by rewrite lookup_insert_ne.
    rewrite Hx'. simpl. rewrite wp_destroy_release. simpl.
    destruct (release_weak_consistent w _ _
      (λ b, refs weak_ptr.cb b
              (<[x := weak_ptr.mk (weak_ptr.cb o) (weak_ptr.ptr o)]>
                 (<[y := weak_ptr.mk None nullptr]> wp)))
      (weak_ptr.cb h) Hwf) as (w2 & -> & Hc2 & _).
    { intros b Hb. split; [exact (refs_pos _ _ x h b Hx Hb)|].
      pose proof (refs_le_size weak_ptr.cb wp b). lia. }
    { intros b. count_refs. }
    simpl. eexists; split; [done|]; simpl. split; [done|].
    rewrite !map_size_insert, Hx', Hy. simpl. lia.
  - eexists; split; [done|]; simpl. split; [done|lia].
Qed.

Lemma exec_Wp_assign_shared_wf x y s :
  wf s → room 1 s → scoped (Wp_assign_shared x y) s = true →
  ∃ s', exec (Wp_assign_shared x y) s = Some s' ∧ wf s' ∧ grows s s'.
Proof.
  open_state s. object x h Hx. object y o Hy. unfold weak_ptr.assign_shared.
  rewrite Hy. simpl. rewrite wp_of_shared_acquire.
  destruct (acquire_weak_consistent w _ _
    (λ b, refs weak_ptr.cb b wp + tick b (shared_ptr.cb o))%nat
    (shared_ptr.cb o) Hwf) as (w1 & -> & Hc1 & _).
  { intros b Hb. pose proof (refs_pos shared_ptr.cb sp y o b Hy Hb).
    pose proof (refs_le_size weak_ptr.cb wp b). lia. }
  { done. }
  simpl. rewrite Hx. simpl. rewrite wp_destroy_release. simpl.
  destruct (release_weak_consistent w1 _ _
    (λ b, refs weak_ptr.cb b
            (<[x := weak_ptr.mk (shared_ptr.cb o) (shared_ptr.ptr o)]> wp))
    (weak_ptr.cb h) Hc1) as (w2 & -> & Hc2 & _).
  { intros b Hb. pose proof (refs_pos weak_ptr.cb wp x h b Hx Hb).
    pose proof (refs_le_size weak_ptr.cb wp b).
    unfold tick. case_decide; lia. }
  { intros b. count_refs. }
  simpl. eexists; split; [done|]; simpl. split; [done|size_frames].
Qed.

Lemma lock_consistent w sc wc sc' this :
  consistent w sc wc →
  (∀ b, weak_ptr.cb this = Some b →
        (0 < wc b)%nat ∧ Z.of_nat (sc b) < SIZE_MAX) →
  (∀ b', sc' b' = (sc b' + tick b' (promoted sc this))%nat) →
  ∃ w', weak_ptr.lock this w =
          Some (match promoted sc this with
                | Some b => shared_ptr.mk (Some b) (weak_ptr.ptr this)
                | None => shared_ptr.default
                end, w') ∧
        consistent w' sc' wc ∧ next w' = next w ∧ trace w' = trace w.
Proof.
  intros Hc Hr Hsc'. unfold weak_ptr.lock, promoted in *.
  destruct (weak_ptr.cb this) as [b|] eqn:Hcb.
  - destruct (Hr b eq_refl) as [Hpos Hmax].
    destruct (consistent_live w sc wc b Hc) as (c & Hb & Hs & _); [lia|].
    unfold get_strong_ref_count. rewrite Hb. simpl.
    case_decide as Hz.
    + rewrite Hs, Hz. simpl. exists w. split; [done|]. split; [|done].
      eapply consistent_ext; [done| |done].
      intros b'. rewrite Hsc', tick_none. lia.
    + destruct (Z.eqb_spec (strong_ref_ c) 0) as [E|E]; [lia|].
      destruct (inc_strong_ref_consistent w sc wc sc' b Hc)
        as (w' & -> & Hc' & Hn & Ht); [lia|done|done|].
      simpl. by exists w'.
  - exists w. split; [done|]. split; [|done].
    eapply consistent_ext; [done| |done].
    intros b'. rewrite Hsc', tick_none. lia.
Qed.

Lemma exec_Wp_lock_wf x y s :
  wf s → room 1 s → scoped (Wp_lock x y) s = true →
  ∃ s', exec (Wp_lock x y) s = Some s' ∧ wf s' ∧ grows s s'.
Proof.
  open_state s. object y o Hy. unfold fresh.
  repeat match goal with H : _ !! _ = _ |- _ => rewrite H; simpl end.
  destruct (lock_consistent w _ _
    (λ b, refs shared_ptr.cb b
       (<[x := match promoted (λ b, refs shared_ptr.cb b sp) o with
               | Some b => shared_ptr.mk (Some b) (weak_ptr.ptr o)
               | None => shared_ptr.default
               end]> sp)) o Hwf) as (w' & -> & Hc' & _).
  - intros b Hb. split; [exact (refs_pos _ _ y o b Hy Hb)|].
    pose proof (refs_le_size shared_ptr.cb sp b). lia.
  - intros b. destruct (promoted _ o); count_refs.
  - simpl. eexists; split; [done|]; simpl. split; [done|size_frames].
Qed.

(** Every well-scoped statement runs, and keeps the state well-formed. *)
Lemma exec_wf c s :
  wf s → room 1 s → scoped c s = true →
  ∃ s', exec c s = Some s' ∧ wf s' ∧ grows s s'.
Proof.
  destruct c;
    eauto using exec_Sp_default_wf, exec_Sp_nullptr_wf, exec_Sp_raw_wf,
      exec_Sp_make_wf, exec_Sp_alias_wf, exec_Sp_copy_wf, exec_Sp_move_wf,
      exec_Sp_assign_wf, exec_Sp_move_assign_wf, exec_Sp_destroy_wf,
      exec_Sp_reset_wf, exec_Sp_reset_raw_wf, exec_Sp_swap_wf,
      exec_Wp_default_wf, exec_Wp_copy_wf, exec_Wp_move_wf,
      exec_Wp_of_shared_wf, exec_Wp_assign_wf, exec_Wp_move_assign_wf,
      exec_Wp_assign_shared_wf, exec_Wp_destroy_wf, exec_Wp_swap_wf,
      exec_Wp_lock_wf.
Qed.


(** A statement that runs is well-scoped. *)
Lemma exec_scoped c s s' : exec c s = Some s' → scoped c s = true.
Proof.
  destruct s as [w sp wp]. intros H.
  destruct c; simpl in *;
    unfold fresh, shared_ptr.assign, shared_ptr.move_assign,
      shared_ptr.reset, shared_ptr.reset_raw, shared_ptr.swap_objects,
      weak_ptr.assign, weak_ptr.move_assign, weak_ptr.assign_shared,
      weak_ptr.swap_objects in *;
    repeat match type of H with
    | context [bool_decide ?P] => destruct (bool_decide_reflect P)
    end; simpl in H;
    repeat match type of H with
    | context [@lookup var _ _ _ ?x ?m] =>
        rewrite ?lookup_insert_ne in H by done;
        match type of H with
        | context [@lookup var _ _ _ ?x ?m] =>
            destruct (m !! x) eqn:?; simpl in H
        end
    end;
    try discriminate;
    repeat match goal with
    | E : ¬ _ ≠ _ |- _ => apply dec_stable in E
    end; subst; unfold unused, declared;
    rewrite ?andb_true_iff, ?bool_decide_eq_true; eauto;
    exfalso;
    repeat match type of H with
    | context [?m ≫= _] =>
        lazymatch m with
        | _ ≫= _ => fail
        | _ => destruct m as [[??]|]; simpl in H
        end
    end; discriminate.
Qed.

(** ** Runs *)

Lemma initial_wf : wf initial.
Proof.
  split; simpl.
  - intros b. unfold block_ok, strong_handles, weak_handles. simpl.
    rewrite lookup_empty, !refs_empty.
    case_decide; [lia|done].
  - intros t1 t2 b Heq. by destruct t1.
Qed.

Lemma initial_room n : Z.of_nat n < SIZE_MAX → room n initial.
Proof. unfold room. simpl. rewrite !map_size_empty. lia. Qed.

Lemma run_wf prog k s s' :
  wf s → room (length prog + k) s → run prog s = Some s' →
  wf s' ∧ room k s'.
Proof.
  revert s. induction prog as [|c prog IH]; intros s Hwf Hroom Hrun.
  - simpl in Hrun. by simplify_eq.
  - simpl in Hrun. destruct (exec c s) as [s1|] eqn:Hc; [|done].
    simpl in Hrun.
    destruct (exec_wf c s Hwf) as (s1' & Hc' & Hwf1 & Hg).
    + unfold room in *. simpl in Hroom. lia.
    + by eapply exec_scoped.
    + rewrite Hc in Hc'. injection Hc' as <-. apply (IH s1); [done| |done].
      unfold room, grows in *. simpl in Hroom. lia.
Qed.

(** The states a program can reach from the empty state. *)
Lemma reachable_wf_room prog k s :
  run prog initial = Some s → Z.of_nat (length prog + k) < SIZE_MAX →
  wf s ∧ room k s.
Proof.
  intros Hrun Hlen.
  eapply run_wf; [apply initial_wf|by apply initial_room|done].
Qed.

Lemma reachable_wf prog s :
  run prog initial = Some s → Z.of_nat (length prog) < SIZE_MAX →
  wf s ∧ room 0 s.
Proof.
  intros Hrun Hlen. apply (reachable_wf_room prog 0 s Hrun).
  by rewrite Nat.add_0_r.
Qed.

Lemma run_app p1 p2 s :
  run (p1 ++ p2) s = s1 ← run p1 s; run p2 s1.
Proof.
  revert s. induction p1 as [|c p1 IH]; intros s; [done|].
  simpl. destruct (exec c s); [apply IH|done].
Qed.

(** In a well-formed state a handle reads the number of owners. *)
Lemma wf_use_count s x h :
  wf s → owners s !! x = Some h →
  shared_ptr.use_count h (world s) =
    Some (match shared_ptr.cb h with
          | Some b => Z.of_nat (strong_handles b s)
          | None => 0
          end).
Proof.
  intros Hwf Hx. unfold shared_ptr.use_count.
  destruct (shared_ptr.cb h) as [b|] eqn:Hb; [|done].
  pose proof (refs_pos shared_ptr.cb (owners s) x h b Hx Hb) as Hpos.
  destruct (consistent_live _ _ _ b Hwf) as (c & Hc & Hs & _).
  { unfold strong_handles. lia. }
  unfold get_strong_ref_count. rewrite Hc. simpl. by rewrite Hs.
Qed.

(** A block that was deleted had been disposed. *)
Lemma deleted_was_disposed tr b :
  disposed_first tr → (0 < count (is_delete b) tr)%nat →
  (0 < disposals b tr)%nat.
Proof.
  intros Hord Hpos. unfold count in Hpos.
  destruct (filter (λ e, is_delete b e = true) tr) as [|e l] eqn:Hf;
    [simpl in Hpos; lia|].
  assert (He : e ∈ filter (λ e, is_delete b e = true) tr).
  { rewrite Hf. by left. }
  apply list_elem_of_filter in He as [Hd He].
  destruct e; simpl in Hd; try discriminate.
  apply bool_decide_eq_true in Hd as ->.
  apply list_elem_of_split in He as (t1 & t2 & ->).
  pose proof (Hord t1 t2 b eq_refl).
  unfold disposals in *. rewrite count_app. lia.
Qed.

(** What a well-formed state says about one block. *)
Lemma wf_block s b :
  wf s →
  (disposals b (trace (world s)) ≤ 1)%nat ∧
  (deallocations b (trace (world s)) ≤ 1)%nat ∧
  (∀ c, heap (world s) !! b = Some c →
        strong_ref_ c = Z.of_nat (strong_handles b s) ∧
        weak_ref_ c = Z.of_nat (weak_handles b s) ∧
        0 < strong_ref_ c + weak_ref_ c ∧
        deallocations b (trace (world s)) = 0%nat ∧
        (0 < strong_ref_ c → disposals b (trace (world s)) = 0%nat) ∧
        (strong_ref_ c = 0 → disposals b (trace (world s)) = 1%nat)) ∧
  (heap (world s) !! b = None →
        strong_handles b s = 0%nat ∧ weak_handles b s = 0%nat ∧
        ((b < next (world s))%positive →
           deallocations b (trace (world s)) = 1%nat)).
Proof.
  intros [Hall _]. specialize (Hall b). unfold block_ok in Hall.
  destruct (heap (world s) !! b) as [c|].
  - destruct Hall as (Hs & Hk & Hpos & Hn & Hd & Hf).
    split; [rewrite Hd; case_decide; lia|]. split; [lia|]. split; [|done].
    intros c' [= <-]. rewrite Hd, Hs, Hk.
    repeat split; try done; try lia; intros; case_decide; lia.
  - destruct Hall as (Hs & Hk & Hd).
    case_decide; destruct Hd as [Hf Hd];
      (split; [lia|]); (split; [lia|]); (split; [done|]);
      intros _; repeat split; try done; intros; lia.
Qed.

(** ** One decrement, seen from outside *)

Lemma dec_strong_ref_local w b c :
  heap w !! b = Some c → 0 < strong_ref_ c ≤ SIZE_MAX →
  ∃ w', dec_strong_ref b w = Some w' ∧
    (∀ c', heap w' !! b = Some c' →
           strong_ref_ c' = strong_ref_ c - 1 ∧
           weak_ref_ c' = weak_ref_ c ∧ kind c' = kind c) ∧
    (∀ b', b' ≠ b → heap w' !! b' = heap w !! b') ∧
    (heap w' !! b = None ↔ strong_ref_ c = 1 ∧ weak_ref_ c = 0) ∧
    next w' = next w ∧
    trace w' =
      trace w ++
        (if strong_ref_ c =? 1
         then Unlink b (disposal_of b c)
              :: (if weak_ref_ c =? 0 then [DeleteThis b] else [])
         else []).
Proof.
  intros Hb Hs. rewrite (dec_strong_ref_eq b c w Hb Hs).
  eexists; split; [done|].
  destruct (Z.eqb_spec (strong_ref_ c) 1) as [E|E];
    [destruct (Z.eqb_spec (weak_ref_ c) 0) as [E'|E']|]; simpl.
  - rewrite lookup_delete_eq. split_and!; [done| |done|done|done].
    intros b' Hne. by rewrite lookup_delete_ne.
  - rewrite lookup_insert_eq. split_and!; [| |split; [done|lia]|done|done].
    + intros c' [= <-]. simpl. split_and!; [lia|done|done].
    + intros b' Hne. by rewrite lookup_insert_ne.
  - rewrite lookup_insert_eq, app_nil_r.
    split_and!; [| |split; [done|lia]|done|done].
    + by intros c' [= <-].
    + intros b' Hne. by rewrite lookup_insert_ne.
Qed.

Lemma dec_weak_ref_local w b c :
  heap w !! b = Some c → 0 < weak_ref_ c ≤ SIZE_MAX →
  ∃ w', dec_weak_ref b w = Some w' ∧
    (∀ c', heap w' !! b = Some c' →
           weak_ref_ c' = weak_ref_ c - 1 ∧
           strong_ref_ c' = strong_ref_ c ∧ kind c' = kind c) ∧
    (∀ b', b' ≠ b → heap w' !! b' = heap w !! b') ∧
    (heap w' !! b = None ↔ weak_ref_ c = 1 ∧ strong_ref_ c = 0) ∧
    next w' = next w ∧
    trace w' =
      trace w ++
        (if (strong_ref_ c =? 0) && (weak_ref_ c =? 1)
         then [DeleteThis b] else []).
Proof.
  intros Hb Hs. rewrite (dec_weak_ref_eq b c w Hb Hs).
  eexists; split; [done|].
  destruct (Z.eqb_spec (strong_ref_ c) 0) as [E|E];
    [destruct (Z.eqb_spec (weak_ref_ c) 1) as [E'|E']|]; simpl.
  - rewrite lookup_delete_eq. split_and!; [done| |done|done|done].
    intros b' Hne. by rewrite lookup_delete_ne.
  - rewrite lookup_insert_eq, app_nil_r.
    split_and!; [| |split; [done|lia]|done|done].
    + by intros c' [= <-].
    + intros b' Hne. by rewrite lookup_insert_ne.
  - rewrite lookup_insert_eq, app_nil_r.
    split_and!; [| |split; [done|lia]|done|done].
    + by intros c' [= <-].
    + intros b' Hne. by rewrite lookup_insert_ne.
Qed.

(** ** The claims *)

(** Disposal when the callee of [unlink] touches no handle.  For a block
    whose strong count is positive, [dec_strong_ref] lowers the strong count
    by one.  When the result is zero, [unlink] runs once -- the stored
    deleter on the stored pointer for a [ptr_block], the destructor over the
    embedded storage for an [obj_block] -- and after it, when the weak count
    is zero too, the block is deleted.  When the result is positive nothing
    is disposed.  Over a whole program, no block is disposed twice, a block
    that was deleted had been disposed once, a block whose strong count is
    positive has not been disposed, and one whose strong count is zero has
    been. *)
Lemma dec_strong_ref_disposes_once :
  (∀ (w : World) (b : loc) (c : control_block),
     heap w !! b = Some c → 0 < strong_ref_ c ≤ SIZE_MAX →
     ∃ w', dec_strong_ref b w = Some w' ∧
       (∀ c', heap w' !! b = Some c' →
              strong_ref_ c' = strong_ref_ c - 1 ∧
              weak_ref_ c' = weak_ref_ c ∧ kind c' = kind c) ∧
       (∀ b', b' ≠ b → heap w' !! b' = heap w !! b') ∧
       (heap w' !! b = None ↔ strong_ref_ c = 1 ∧ weak_ref_ c = 0) ∧
       trace w' =
         trace w ++
           (if strong_ref_ c =? 1
            then Unlink b (match kind c with
                           | ptr_block p d => Deleter d p
                           | obj_block => Destructor (storage_of b)
                           end)
                 :: (if weak_ref_ c =? 0 then [DeleteThis b] else [])
            else []))
  ∧
  (∀ (prog : list stmt) (s : State),
     run prog initial = Some s → Z.of_nat (length prog) < SIZE_MAX →
     ∀ b, (disposals b (trace (world s)) ≤ 1)%nat ∧
          ((0 < count (is_delete b) (trace (world s)))%nat →
             disposals b (trace (world s)) = 1%nat) ∧
          ∀ c, heap (world s) !! b = Some c →
               (0 < strong_ref_ c → disposals b (trace (world s)) = 0%nat) ∧
               (strong_ref_ c = 0 → disposals b (trace (world s)) = 1%nat)).
Proof.
  split.
  - intros w b c Hb Hs.
    destruct (dec_strong_ref_local w b c Hb Hs)
      as (w' & Hw' & Hc' & Hfr & Hgone & _ & Ht).
    exists w'. by split_and!.
  - intros prog s Hrun Hlen b.
    destruct (reachable_wf prog s Hrun Hlen) as [Hwf _].
    destruct (wf_block s b Hwf) as (Hd & _ & Hlive & _).
    split; [done|]. split.
    + intros Hdel.
      pose proof (deleted_was_disposed _ b (proj2 Hwf) Hdel). lia.
    + intros c Hc.
      destruct (Hlive c Hc) as (_ & _ & _ & _ & H1 & H2). done.
Qed.

Lemma dec_strong_ref_disposes_once_example :
  (∃ w', dec_strong_ref 1%positive sole_owner_world = Some w' ∧
         trace w' = [Alloc 1%positive;
                     Unlink 1%positive (Destructor (storage_of 1%positive));
                     DeleteThis 1%positive]) ∧
  disposals 1%positive (trace (world scenario_end)) = 1%nat.
Proof.
  split.
  - destruct (proj1 dec_strong_ref_disposes_once sole_owner_world 1%positive
                new_obj_block eq_refl) as (w' & Hw' & _ & _ & _ & Ht).
    + simpl. unfold SIZE_MAX. lia.
    + exists w'. split; [exact Hw'|exact Ht].
  - destruct (proj2 dec_strong_ref_disposes_once scenario scenario_end
                eq_refl eq_refl 1%positive) as (_ & _ & Hc).
    destruct (Hc (mk_control_block 0 1 obj_block) eq_refl) as [_ Hd].
    exact (Hd eq_refl).
Defined.

(** The last owner of a block goes away while the pointee holds the only
    weak handle to that block: [unlink] runs the destructor of the pointee,
    which destroys the weak handle, and [dec_weak_ref] deletes the block. *)
Lemma unlink_frees_observed_block w b c p :
  heap w !! b = Some c → strong_ref_ c = 0 → weak_ref_ c = 1 →
  ∃ w', unlink_with (observer (weak_ptr.mk (Some b) p)) b w = Some w' ∧
        heap w' !! b = None ∧
        trace w' = trace w ++ [Unlink b (disposal_of b c); DeleteThis b].
Proof.
  intros Hb Hs Hk. unfold unlink_with, observer, weak_ptr.destroy. simpl.
  rewrite Hb. simpl.
  rewrite (dec_weak_ref_eq b c); [|done|rewrite Hk; done].
  rewrite Hs, Hk. simpl. eexists. split; [done|]. simpl.
  split; [by rewrite lookup_delete_eq|by rewrite <- app_assoc].
Qed.

Lemma get_strong_ref_count_stored b c h n t :
  get_strong_ref_count b (mk_World (<[b := c]> h) n t) = Some (strong_ref_ c).
Proof. unfold get_strong_ref_count. simpl. by rewrite lookup_insert_eq. Qed.

(** ... and back in [dec_strong_ref] the counters of the deleted block
    are read again. *)
Lemma dec_strong_ref_reads_freed_block w b c p :
  heap w !! b = Some c → strong_ref_ c = 1 → weak_ref_ c = 1 →
  dec_strong_ref_with (observer (weak_ptr.mk (Some b) p)) b w = None.
Proof.
  intros Hb Hs Hk. unfold dec_strong_ref_with. rewrite Hb. simpl.
  rewrite Hs. unfold store_block. simpl.
  rewrite get_strong_ref_count_stored. simpl.
  destruct (unlink_frees_observed_block
              (mk_World (<[b := set_strong (size_t (1 - 1)) c]> (heap w))
                        (next w) (trace w)) b
              (set_strong (size_t (1 - 1)) c) p) as (w' & -> & Hgone & _);
    [simpl; by rewrite lookup_insert_eq|done|done|].
  simpl. unfold get_strong_ref_count. by rewrite Hgone.
Qed.

(** C1. [dec_strong_ref] does not keep its contract for every block whose
    strong count is positive.  Whatever the callee of [unlink] does: while
    the count stays positive after the decrement the callee is not called
    and nothing is disposed; when the count reaches zero the callee is
    called once, on the block with strong count zero, and [dec_strong_ref]
    then reads both counters of the block from the world the callee left.
    A pointee that holds the last weak handle to its own block releases it
    in that call: [dec_weak_ref] finds both counts zero and deletes the
    block inside the disposal step, not after it, and the read that follows
    in [dec_strong_ref] is of a deleted block, so the call has no defined
    result.  The state is reached by [make_shared<Node>()] and
    [p->self = p]. *)
Theorem dec_strong_ref_breaks_on_self_observer :
  (∀ (run : client) (w : World) (b : loc) (c : control_block),
     heap w !! b = Some c → 1 < strong_ref_ c ≤ SIZE_MAX →
     dec_strong_ref_with run b w
     = Some (store_block b (set_strong (strong_ref_ c - 1) c) w))
  ∧
  (∀ (run : client) (w : World) (b : loc) (c : control_block),
     heap w !! b = Some c → strong_ref_ c = 1 →
     dec_strong_ref_with run b w
     = w1 ← run (disposal_of b c)
               (emit (Unlink b (disposal_of b c))
                  (store_block b (set_strong 0 c) w));
       c1 ← heap w1 !! b;
       if (strong_ref_ c1 =? 0) && (weak_ref_ c1 =? 0)
       then delete_this b w1 else Some w1)
  ∧
  (∀ (w : World) (b : loc) (c : control_block) (p : pointer),
     heap w !! b = Some c → strong_ref_ c = 1 → weak_ref_ c = 1 →
     (∃ w1, unlink_with (observer (weak_ptr.mk (Some b) p)) b
              (store_block b (set_strong 0 c) w) = Some w1 ∧
            heap w1 !! b = None ∧
            trace w1 = trace w ++ [Unlink b (disposal_of b c); DeleteThis b]) ∧
     dec_strong_ref_with (observer (weak_ptr.mk (Some b) p)) b w = None)
  ∧
  run self_observing initial = Some self_observed ∧
  heap (world self_observed) !! 1%positive
    = Some (mk_control_block 1 1 obj_block).
Proof.
  split_and!.
  - intros run w b c Hc Hs.
    unfold dec_strong_ref_with, get_strong_ref_count, get_weak_ref,
      store_block.
    rewrite Hc. simpl. rewrite size_t_id by lia.
    rewrite lookup_insert_eq. simpl.
    destruct (Z.eqb_spec (strong_ref_ c - 1) 0) as [E|E]; [lia|]. simpl.
    rewrite lookup_insert_eq. simpl.
    by destruct (Z.eqb_spec (strong_ref_ c - 1) 0) as [E'|E']; [lia|].
  - intros run w b c Hc Hs.
    unfold dec_strong_ref_with, get_strong_ref_count, get_weak_ref,
      unlink_with, store_block.
    rewrite Hc. simpl. rewrite Hs. change (size_t (1 - 1)) with 0.
    rewrite lookup_insert_eq. simpl.
    change (disposal_of b (set_strong 0 c)) with (disposal_of b c).
    destruct (run _ _) as [w1|]; [|done]. simpl.
    by destruct (heap w1 !! b) as [c1|].
  - intros w b c p Hc Hs Hk. split.
    + destruct (unlink_frees_observed_block
                  (store_block b (set_strong 0 c) w) b (set_strong 0 c) p)
        as (w1 & Hu & Hgone & Ht);
        [simpl; by rewrite lookup_insert_eq|done|done|].
      by exists w1.
    + by apply (dec_strong_ref_reads_freed_block w b c p).
  - reflexivity.
  - reflexivity.
Qed.

Lemma dec_strong_ref_breaks_on_self_observer_witness :
  dec_strong_ref_with (observer scenario_weak) 1%positive (world self_observed)
  = None.
Proof.
  exact (proj2 (proj1 (proj2 (proj2 dec_strong_ref_breaks_on_self_observer))
                  (world self_observed) 1%positive
                  (mk_control_block 1 1 obj_block) (storage_of 1%positive)
                  eq_refl eq_refl eq_refl)).
Defined.

(** C2.  The code does not deallocate every block exactly once, after
    its disposal.  After [make_shared<Node>()] and [p->self = p] the block
    has strong count 1 and weak count 1, and the weak handle is a member of
    the pointee.  When the last owner goes, [dec_strong_ref] brings the
    strong count to zero and calls [unlink]; the destructor of the pointee
    destroys the weak handle, [dec_weak_ref] finds both counts zero and
    deletes the block while [unlink] is still running; [dec_strong_ref]
    then reads the counters of the deleted block for its own test, which
    has no defined behaviour (a second [delete this] when the stale
    counters read zero).  With a pointee that holds no handle the same call
    disposes the pointee and keeps the block for the weak handle. *)
Theorem self_observer_block_freed_in_unlink :
  run self_observing initial = Some self_observed ∧
  (∃ w, unlink_with
          (observer (weak_ptr.mk (Some 1%positive) (storage_of 1%positive)))
          1%positive
          (store_block 1%positive (mk_control_block 0 1 obj_block)
             (world self_observed)) = Some w ∧
        heap w !! 1%positive = None ∧
        trace w = [Alloc 1%positive;
                   Unlink 1%positive (Destructor (storage_of 1%positive));
                   DeleteThis 1%positive]) ∧
  dec_strong_ref_with
    (observer (weak_ptr.mk (Some 1%positive) (storage_of 1%positive)))
    1%positive (world self_observed) = None ∧
  dec_strong_ref 1%positive (world self_observed)
    = Some (mk_World {[1%positive := mk_control_block 0 1 obj_block]}
                     2%positive
                     [Alloc 1%positive;
                      Unlink 1%positive (Destructor (storage_of 1%positive))]).
Proof.
  split_and!.
  - reflexivity.
  - eexists. split; [reflexivity|]. split; reflexivity.
  - exact (dec_strong_ref_reads_freed_block (world self_observed) 1%positive
             (mk_control_block 1 1 obj_block) (storage_of 1%positive)
             eq_refl eq_refl eq_refl).
  - reflexivity.
Qed.

(** Deallocation when the callee of [unlink] touches no handle.
    [dec_weak_ref] lowers the weak count by one and deletes the block
    exactly when the result is zero and the strong count is zero already;
    [dec_strong_ref] deletes it exactly when both counts are zero after it.
    Over a whole program, a block is deallocated at most once, a block that
    is still allocated has not been deallocated and has a positive count, a
    block that is gone has been deallocated exactly once, and every
    [delete this] of a block comes after its disposal. *)
Lemma deallocated_once_when_inert :
  (∀ (w : World) (b : loc) (c : control_block),
     heap w !! b = Some c → 0 < weak_ref_ c ≤ SIZE_MAX →
     ∃ w', dec_weak_ref b w = Some w' ∧
       (∀ c', heap w' !! b = Some c' →
              weak_ref_ c' = weak_ref_ c - 1 ∧
              strong_ref_ c' = strong_ref_ c ∧ kind c' = kind c) ∧
       (∀ b', b' ≠ b → heap w' !! b' = heap w !! b') ∧
       (heap w' !! b = None ↔ weak_ref_ c = 1 ∧ strong_ref_ c = 0) ∧
       trace w' =
         trace w ++
           (if (strong_ref_ c =? 0) && (weak_ref_ c =? 1)
            then [DeleteThis b] else []))
  ∧
  (∀ (w : World) (b : loc) (c : control_block),
     heap w !! b = Some c → 0 < strong_ref_ c ≤ SIZE_MAX →
     ∃ w', dec_strong_ref b w = Some w' ∧
       (heap w' !! b = None ↔ strong_ref_ c = 1 ∧ weak_ref_ c = 0) ∧
       count (is_delete b) (trace w') =
         (count (is_delete b) (trace w) +
            if ((strong_ref_ c =? 1) && (weak_ref_ c =? 0))%Z then 1 else 0)%nat)
  ∧
  (∀ (prog : list stmt) (s : State),
     run prog initial = Some s → Z.of_nat (length prog) < SIZE_MAX →
     disposed_first (trace (world s)) ∧
     ∀ b, (deallocations b (trace (world s)) ≤ 1)%nat ∧
          (∀ c, heap (world s) !! b = Some c →
                deallocations b (trace (world s)) = 0%nat ∧
                0 < strong_ref_ c + weak_ref_ c) ∧
          (heap (world s) !! b = None → (b < next (world s))%positive →
                deallocations b (trace (world s)) = 1%nat)).
Proof.
  split_and!.
  - intros w b c Hb Hs.
    destruct (dec_weak_ref_local w b c Hb Hs)
      as (w' & Hw' & Hc' & Hfr & Hgone & _ & Ht).
    by exists w'.
  - intros w b c Hb Hs. rewrite (dec_strong_ref_eq b c w Hb Hs).
    eexists; split; [done|].
    destruct (Z.eqb_spec (strong_ref_ c) 1) as [E|E];
      [destruct (Z.eqb_spec (weak_ref_ c) 0) as [E'|E']|]; simpl.
    + rewrite lookup_delete_eq, snoc2, !count_snoc. simpl.
      rewrite bool_decide_eq_true_2 by done. split; [done|lia].
    + rewrite lookup_insert_eq, count_snoc. simpl. split; [|lia].
      split; [done|lia].
    + rewrite lookup_insert_eq. split; [|lia]. split; [done|lia].
  - intros prog s Hrun Hlen.
    destruct (reachable_wf prog s Hrun Hlen) as [Hwf _].
    split; [apply Hwf|]. intros b.
    destruct (wf_block s b Hwf) as (_ & Hf & Hlive & Hdead).
    split_and!; [done| |].
    + intros c Hc. destruct (Hlive c Hc) as (_ & _ & ? & ? & _). done.
    + intros Hb Hn. by apply Hdead.
Qed.

Lemma deallocated_once_when_inert_example :
  (∃ w', dec_weak_ref 1%positive (world scenario_end) = Some w' ∧
         heap w' !! 1%positive = None) ∧
  deallocations 1%positive (trace (world scenario_end)) = 0%nat.
Proof.
  split.
  - destruct (proj1 deallocated_once_when_inert (world scenario_end) 1%positive
                (mk_control_block 0 1 obj_block) eq_refl)
      as (w' & Hw' & _ & _ & Hgone & _).
    + done.
    + exists w'. split; [exact Hw'|]. apply Hgone. done.
  - destruct (proj2 (proj2 deallocated_once_when_inert) scenario scenario_end
                eq_refl eq_refl) as [_ Hb].
    destruct (Hb 1%positive) as (_ & Hlive & _).
    exact (proj1 (Hlive (mk_control_block 0 1 obj_block) eq_refl)).
Defined.

(** C3. [lock] returns a null owning handle, and changes nothing, when the
    weak handle has no block or when the strong count of its block reads 0,
    whatever the weak count is.  Otherwise it adds one to the strong count
    and returns an owning handle with the same block and the same stored
    pointer, whose [use_count] is the former strong count plus one.  Every
    weak handle of a program is in one of these cases. *)
Theorem lock_promotes_live_only :
  (∀ (this : weak_ptr.t) (w : World),
     (weak_ptr.cb this = None →
        weak_ptr.lock this w = Some (shared_ptr.default, w)) ∧
     (∀ b c, weak_ptr.cb this = Some b → heap w !! b = Some c →
        strong_ref_ c = 0 →
        weak_ptr.lock this w = Some (shared_ptr.default, w)) ∧
     (∀ b c, weak_ptr.cb this = Some b → heap w !! b = Some c →
        0 < strong_ref_ c < SIZE_MAX →
        ∃ h w', weak_ptr.lock this w = Some (h, w') ∧
          shared_ptr.cb h = Some b ∧ shared_ptr.ptr h = weak_ptr.ptr this ∧
          heap w' = <[b := set_strong (strong_ref_ c + 1) c]> (heap w) ∧
          trace w' = trace w ∧
          shared_ptr.use_count h w' = Some (strong_ref_ c + 1)))
  ∧
  (∀ (prog : list stmt) (s : State) (y : var) (this : weak_ptr.t) (b : loc),
     run prog initial = Some s → Z.of_nat (length prog) < SIZE_MAX →
     observers s !! y = Some this → weak_ptr.cb this = Some b →
     ∃ c, heap (world s) !! b = Some c ∧ 0 ≤ strong_ref_ c < SIZE_MAX).
Proof.
  split.
  - intros this w. split_and!.
    + intros Hcb. unfold weak_ptr.lock. by rewrite Hcb.
    + intros b c Hcb Hb Hs. unfold weak_ptr.lock, get_strong_ref_count.
      rewrite Hcb, Hb. simpl. by rewrite Hs.
    + intros b c Hcb Hb Hs. unfold weak_ptr.lock, get_strong_ref_count.
      rewrite Hcb, Hb. simpl.
      destruct (Z.eqb_spec (strong_ref_ c) 0) as [E|E]; [lia|].
      rewrite (inc_strong_ref_eq b c w Hb) by lia. simpl.
      eexists _, _. split; [done|]. simpl. split_and!; try done.
      unfold shared_ptr.use_count, get_strong_ref_count, store_block. simpl.
      by rewrite lookup_insert_eq.
  - intros prog s y this b Hrun Hlen Hy Hcb.
    destruct (reachable_wf prog s Hrun Hlen) as [Hwf Hroom].
    pose proof (refs_pos weak_ptr.cb (observers s) y this b Hy Hcb) as Hpos.
    destruct (consistent_live _ _ _ b Hwf) as (c & Hc & Hs & _).
    { unfold weak_handles. lia. }
    exists c. split; [done|]. rewrite Hs.
    pose proof (refs_le_size shared_ptr.cb (owners s) b).
    unfold room, strong_handles in *. lia.
Qed.

Lemma lock_promotes_live_only_witness :
  (∃ h w', weak_ptr.lock scenario_weak shared_world = Some (h, w') ∧
           shared_ptr.use_count h w' = Some 3) ∧
  weak_ptr.lock scenario_weak (world scenario_end)
    = Some (shared_ptr.default, world scenario_end) ∧
  (∃ c, heap (world scenario_end) !! 1%positive = Some c ∧
        0 ≤ strong_ref_ c < SIZE_MAX).
Proof.
  split_and!.
  - destruct (proj1 lock_promotes_live_only scenario_weak shared_world)
      as (_ & _ & Hlive).
    destruct (Hlive 1%positive (mk_control_block 2 1 obj_block)
                eq_refl eq_refl) as (h & w' & Hl & _ & _ & _ & _ & Hu).
    + simpl. unfold SIZE_MAX. lia.
    + exists h, w'. split; [exact Hl|exact Hu].
  - destruct (proj1 lock_promotes_live_only scenario_weak
                (world scenario_end)) as (_ & Hdead & _).
    exact (Hdead 1%positive (mk_control_block 0 1 obj_block)
             eq_refl eq_refl eq_refl).
  - exact (proj2 lock_promotes_live_only scenario scenario_end 0%nat
             scenario_weak 1%positive eq_refl eq_refl eq_refl eq_refl).
Defined.

(** C4. After every statement of a program that constructs, copies, moves,
    assigns, destroys, resets, swaps and locks owning and weak handles,
    [use_count] of a live owning handle with a block is the number of
    live owning handles of that block, and [use_count] of a handle with no
    block is 0. *)
Theorem use_count_counts_owners :
  ∀ (prog : list stmt) (n : nat) (s : State) (x : var) (h : shared_ptr.t),
    run (take n prog) initial = Some s →
    Z.of_nat (length prog) < SIZE_MAX →
    owners s !! x = Some h →
    shared_ptr.use_count h (world s) =
      Some (match shared_ptr.cb h with
            | Some b => Z.of_nat (strong_handles b s)
            | None => 0
            end).
Proof.
  intros prog n s x h Hrun Hlen Hx.
  destruct (reachable_wf (take n prog) s Hrun) as [Hwf _].
  - rewrite length_take. lia.
  - by apply wf_use_count with x.
Qed.

Lemma use_count_counts_owners_witness :
  shared_ptr.use_count (shared_ptr.of_obj_block 1%positive)
    (mk_World {[1%positive := mk_control_block 3 1 obj_block]} 2%positive
              [Alloc 1%positive])
  = Some 3.
Proof.
  exact (use_count_counts_owners sharing 8
           (mk_State
              (mk_World {[1%positive := mk_control_block 3 1 obj_block]}
                        2%positive [Alloc 1%positive])
              (<[0%nat := shared_ptr.default]>
                 (<[2%nat := shared_ptr.of_obj_block 1%positive]>
                    (<[3%nat := shared_ptr.of_obj_block 1%positive]>
                       {[4%nat := shared_ptr.of_obj_block 1%positive]})))
              {[0%nat := scenario_weak]})
           4%nat (shared_ptr.of_obj_block 1%positive)
           eq_refl eq_refl eq_refl).
Defined.

(** Dropping an owning reference leaves the other blocks alone and runs
    no catch clause. *)
Lemma dec_strong_ref_frame b w w' :
  dec_strong_ref b w = Some w' →
  (∀ b', b' ≠ b → heap w' !! b' = heap w !! b') ∧
  count is_rollback (trace w') = count is_rollback (trace w).
Proof.
  unfold dec_strong_ref, dec_strong_ref_with, get_strong_ref_count,
    get_weak_ref, unlink_with, inert, delete_this, emit, store_block.
  destruct (heap w !! b) as [c|]; [|done]. simpl.
  rewrite lookup_insert_eq. simpl.
  destruct (_ =? 0); simpl; rewrite ?lookup_insert_eq; simpl;
    destruct (_ && _); simpl; rewrite ?lookup_insert_eq; simpl;
    intros [= <-]; simpl; rewrite ?count_snoc; simpl;
    (split; [|lia]); intros b' Hne;
    by rewrite ?lookup_delete_ne, ?lookup_insert_ne.
Qed.

(** C5. The constructor from a raw pointer [p] and a deleter [d]: when
    the new-expression for the control block throws, [d(p)] is called once,
    as the last thing before the exception leaves, no block is left in the
    heap and no handle is made; when it succeeds, no deleter has been
    called, and the handle holds [p] and a new block with strong count 1.
    [reset(p, d)] is the same: on failure the handle keeps what it had, on
    success it holds [p] and a block with strong count 1 whose deleter has
    not run, and no catch clause ran; what else happened is the
    destruction of the value the handle had, which calls [d(p)] only when
    that value was the last owner of a block made for the same [p] and
    [d]. *)
Theorem raw_pointer_failure_safety :
  (∀ (o : new_outcome) (p : pointer) (d : deleter) (w : World),
     match shared_ptr.of_raw o p d w with
     | (Throws, w') =>
         o ≠ Built ∧ heap w' = heap w ∧
         ∃ evs, trace w' = trace w ++ evs ++ [Rollback d p] ∧
                count (is_call d p) evs = 0%nat
     | (Normal h, w') =>
         o = Built ∧ h = shared_ptr.mk (Some (next w)) p ∧
         heap w' = <[next w := mk_control_block 1 0 (ptr_block p d)]> (heap w) ∧
         trace w' = trace w ++ [Alloc (next w)] ∧
         shared_ptr.use_count h w' = Some 1
     end)
  ∧
  (∀ (o : new_outcome) (x : var) (p : pointer) (d : deleter)
     (hs : gmap var shared_ptr.t) (w : World),
     is_Some (hs !! x) → o ≠ Built →
     ∃ w', shared_ptr.of_raw o p d w = (Throws, w') ∧
           shared_ptr.reset_raw o x p d hs w = Some (Throws, hs, w'))
  ∧
  (∀ (prog : list stmt) (s : State) (x : var) (h : shared_ptr.t)
     (p : pointer) (d : deleter),
     run prog initial = Some s → Z.of_nat (length prog + 1) < SIZE_MAX →
     owners s !! x = Some h →
     ∃ s', exec (Sp_reset_raw x p d Built) s = Some s' ∧
       shared_ptr.destroy h (shared_ptr.of_raw Built p d (world s)).2
         = Some (world s') ∧
       owners s' !! x = Some (shared_ptr.mk (Some (next (world s))) p) ∧
       heap (world s') !! next (world s)
         = Some (mk_control_block 1 0 (ptr_block p d)) ∧
       disposals (next (world s)) (trace (world s')) = 0%nat ∧
       count is_rollback (trace (world s'))
         = count is_rollback (trace (world s)) ∧
       ((∀ b c, shared_ptr.cb h = Some b → heap (world s) !! b = Some c →
                kind c ≠ ptr_block p d) →
        count (is_call d p) (trace (world s'))
          = count (is_call d p) (trace (world s)))).
Proof.
  split_and!.
  - intros o p d w. unfold shared_ptr.of_raw. destruct o; simpl.
    + split_and!; try done.
      unfold shared_ptr.use_count, get_strong_ref_count. simpl.
      by rewrite lookup_insert_eq.
    + split_and!; try done. by exists [].
    + split_and!; try done. exists [Alloc (next w); Reclaim (next w)].
      split; [by rewrite <- app_assoc|done].
  - intros o x p d hs w [h Hx] Ho. unfold shared_ptr.reset_raw.
    rewrite Hx. simpl. destruct o; [done| |]; by eexists.
  - intros prog s x h p d Hrun Hlen Hx.
    destruct (reachable_wf_room prog 1 s Hrun Hlen) as [Hwf Hroom].
    destruct (exec_Sp_reset_raw_wf x p d Built s Hwf Hroom)
      as (s' & Hex & Hwf' & _).
    { unfold scoped, declared. simpl. by rewrite Hx. }
    exists s'. split; [done|].
    destruct s as [w sp wp]. simpl in *.
    unfold shared_ptr.reset_raw, shared_ptr.of_raw in Hex.
    rewrite Hx in Hex. simpl in Hex.
    destruct (shared_ptr.destroy _ _) as [w2|] eqn:Hd; [|done].
    simpl in Hex. injection Hex as <-. simpl.
    rewrite lookup_insert_eq. split; [done|].
    destruct (consistent_unborn _ _ _ Hwf) as (Hb & Hsc & _).
    unfold strong_handles in Hsc. simpl in Hb, Hsc.
    assert (Hne : shared_ptr.cb h ≠ Some (next w)).
    { intros Hcb. pose proof (refs_pos _ _ _ _ _ Hx Hcb). lia. }
    unfold shared_ptr.destroy in Hd. simpl in Hd.
    destruct (shared_ptr.cb h) as [b|] eqn:Hcb.
    + destruct (dec_strong_ref_frame _ _ _ Hd) as [Hfr Hrb].
      assert (Hlk : heap w2 !! next w = Some (new_ptr_block p d)).
      { rewrite Hfr by congruence. simpl. by rewrite lookup_insert_eq. }
      destruct (wf_block _ (next w) Hwf') as (_ & _ & Hlive & _).
      destruct (Hlive _ Hlk) as (_ & _ & _ & _ & Hz & _).
      split_and!; try done.
      * by apply Hz.
      * rewrite Hrb. simpl. rewrite count_snoc. simpl. lia.
      * intros Hother.
        pose proof (refs_pos _ _ _ _ _ Hx Hcb) as Hpos.
        destruct (consistent_live _ _ _ b Hwf) as (c & Hc & Hs & _);
          [unfold strong_handles; simpl; lia|].
        unfold strong_handles in Hs. simpl in Hc, Hs.
        pose proof (refs_le_size shared_ptr.cb sp b) as Hle.
        unfold room in Hroom. simpl in Hroom.
        destruct (dec_strong_ref_local
                    (mk_World (<[next w := new_ptr_block p d]> (heap w))
                              (Pos.succ (next w)) (trace w ++ [Alloc (next w)]))
                    b c) as (w2' & Hd' & _ & _ & _ & _ & Ht).
        { simpl. rewrite lookup_insert_ne by congruence. done. }
        { lia. }
        rewrite Hd in Hd'. injection Hd' as <-. rewrite Ht. simpl.
        assert (Hnc : is_call d p (Unlink b (disposal_of b c)) = false).
        { unfold disposal_of. specialize (Hother b c eq_refl Hc).
          destruct (kind c) as [p' d'|]; simpl; [|done].
          apply bool_decide_eq_false. intros [-> ->]. done. }
        destruct (strong_ref_ c =? 1); [destruct (weak_ref_ c =? 0)|];
          rewrite ?app_nil_r, ?snoc2, ?count_snoc, ?Hnc; simpl; lia.
    + injection Hd as <-. simpl. rewrite lookup_insert_eq.
      destruct (wf_block _ (next w) Hwf') as (_ & _ & Hlive & _).
      simpl in Hlive.
      destruct (Hlive (new_ptr_block p d)) as (_ & _ & _ & _ & Hz & _).
      { by rewrite lookup_insert_eq. }
      split_and!; try done.
      * by apply Hz.
      * rewrite count_snoc. simpl. lia.
      * intros _. rewrite count_snoc. simpl. lia.
Qed.

Lemma raw_pointer_failure_safety_witness :
  (∃ w', shared_ptr.of_raw BadAlloc (object_at 8) 5%nat (world raw_owner)
           = (Throws, w') ∧
         shared_ptr.reset_raw BadAlloc 0 (object_at 8) 5%nat
           (owners raw_owner) (world raw_owner)
           = Some (Throws, owners raw_owner, w')) ∧
  (∃ s', exec (Sp_reset_raw 0 (object_at 8) 5%nat Built) raw_owner = Some s' ∧
         disposals 2%positive (trace (world s')) = 0%nat).
Proof.
  split.
  - apply (proj1 (proj2 raw_pointer_failure_safety)).
    + eexists. reflexivity.
    + discriminate.
  - destruct (proj2 (proj2 raw_pointer_failure_safety)
                [Sp_raw 0 (object_at 7) 3%nat Built] raw_owner 0%nat
                (shared_ptr.mk (Some 1%positive) (object_at 7))
                (object_at 8) 5%nat eq_refl eq_refl eq_refl)
      as (s' & Hex & _ & _ & _ & Hd & _ & _).
    exists s'. split; [exact Hex|exact Hd].
Defined.

(** C6. [make_shared]: when the new-expression throws, no handle is
    returned, the heap is as before, nothing is disposed and no deleter is
    called; when it is the constructor of the pointee that threw, the
    storage obtained for the block has been given back.  When the
    new-expression succeeds, one block is added, with strong count 1 and
    weak count 0, and the handle returned reads [use_count] 1: wrapping the
    block adds nothing to its count.  In a program, the block of a failed
    construction is deallocated exactly once and never disposed. *)
Theorem make_shared_failure_safety :
  (∀ (o : new_outcome) (w : World),
     match make_shared o w with
     | (Throws, w') =>
         o ≠ Built ∧ heap w' = heap w ∧
         (∀ b, disposals b (trace w') = disposals b (trace w)) ∧
         count is_rollback (trace w') = count is_rollback (trace w) ∧
         trace w' =
           trace w ++ (match o with
                       | CtorThrew => [Alloc (next w); Reclaim (next w)]
                       | _ => []
                       end)
     | (Normal h, w') =>
         o = Built ∧ h = shared_ptr.mk (Some (next w)) (storage_of (next w)) ∧
         heap w' = <[next w := mk_control_block 1 0 obj_block]> (heap w) ∧
         trace w' = trace w ++ [Alloc (next w)] ∧
         shared_ptr.use_count h w' = Some 1
     end)
  ∧
  (∀ (prog : list stmt) (s : State) (x : var),
     run prog initial = Some s → Z.of_nat (length prog + 1) < SIZE_MAX →
     owners s !! x = None →
     ∃ s', exec (Sp_make x CtorThrew) s = Some s' ∧
       owners s' = owners s ∧ observers s' = observers s ∧
       heap (world s') = heap (world s) ∧
       heap (world s') !! next (world s) = None ∧
       deallocations (next (world s)) (trace (world s')) = 1%nat ∧
       disposals (next (world s)) (trace (world s')) = 0%nat).
Proof.
  split.
  - intros o w. unfold make_shared. destruct o; simpl.
    + split_and!; try done.
      unfold shared_ptr.use_count, get_strong_ref_count. simpl.
      by rewrite lookup_insert_eq.
    + split_and!; try done. by rewrite app_nil_r.
    + split_and!; try done.
      * intros b. rewrite snoc2, !disposals_snoc. simpl. lia.
      * rewrite snoc2, !count_snoc. simpl. lia.
  - intros prog s x Hrun Hlen Hx.
    destruct (reachable_wf_room prog 1 s Hrun Hlen) as [Hwf Hroom].
    destruct (consistent_unborn _ _ _ Hwf) as (Hb & _ & _ & Hf & Hd).
    destruct s as [w sp wp]. simpl in *. unfold fresh. rewrite Hx. simpl.
    eexists; split; [done|]; simpl. split_and!; try done.
    + rewrite snoc2, !deallocations_snoc. simpl.
      rewrite bool_decide_eq_true_2 by done. lia.
    + rewrite snoc2, !disposals_snoc. simpl. lia.
Qed.

Lemma make_shared_failure_safety_witness :
  ∃ s', exec (Sp_make 1 CtorThrew) raw_owner = Some s' ∧
        deallocations 2%positive (trace (world s')) = 1%nat ∧
        disposals 2%positive (trace (world s')) = 0%nat.
Proof.
  destruct (proj2 make_shared_failure_safety
              [Sp_raw 0 (object_at 7) 3%nat Built] raw_owner 1%nat
              eq_refl eq_refl eq_refl)
    as (s' & Hex & _ & _ & _ & _ & Hf & Hd).
  exists s'. split; [exact Hex|]. split; [exact Hf|exact Hd].
Defined.

Lemma set_strong_back c n :
  set_strong (n + 1 - 1) (set_strong (n + 1) c) = set_strong n c.
Proof. unfold set_strong. simpl. f_equal. lia. Qed.

Lemma set_strong_id c : set_strong (strong_ref_ c) c = c.
Proof. by destruct c. Qed.

(** C7. Copy assignment [a = b].  Assigning a handle to itself changes
    nothing.  For two distinct handle objects it is the copy construction
    of a temporary from [b], which takes the new reference, followed by
    the destruction of what [a] held, which drops the old one; [a] ends
    with the block and the pointer of [b].  When [a] and [b] hold the same
    block the count goes up by one and back: the world is as before, so
    the count never reads zero and nothing is disposed.  In a program, the
    count of the block of [b] ends one higher, unless [a] held that block
    already. *)
Theorem copy_assignment_acquires_first :
  (∀ (a : var) (hs : gmap var shared_ptr.t) (w : World),
     is_Some (hs !! a) → shared_ptr.assign a a hs w = Some (hs, w))
  ∧
  (∀ (a b : var) (hs : gmap var shared_ptr.t) (w : World)
     (h o : shared_ptr.t),
     a ≠ b → hs !! a = Some h → hs !! b = Some o →
     shared_ptr.assign a b hs w =
       '(tmp, w1) ← shared_ptr.copy o w;
       w2 ← shared_ptr.destroy h w1;
       Some (<[a := tmp]> hs, w2))
  ∧
  (∀ (a b : var) (hs : gmap var shared_ptr.t) (w : World)
     (h o : shared_ptr.t) (blk : loc) (c : control_block),
     a ≠ b → hs !! a = Some h → hs !! b = Some o →
     shared_ptr.cb h = Some blk → shared_ptr.cb o = Some blk →
     heap w !! blk = Some c → 0 < strong_ref_ c < SIZE_MAX →
     (∃ tmp w1, shared_ptr.copy o w = Some (tmp, w1) ∧
                get_strong_ref_count blk w1 = Some (strong_ref_ c + 1)) ∧
     shared_ptr.assign a b hs w =
       Some (<[a := shared_ptr.mk (Some blk) (shared_ptr.ptr o)]> hs, w))
  ∧
  (∀ (prog : list stmt) (s : State) (a b : var) (h o : shared_ptr.t)
     (blk : loc),
     run prog initial = Some s → Z.of_nat (length prog + 1) < SIZE_MAX →
     a ≠ b → owners s !! a = Some h → owners s !! b = Some o →
     shared_ptr.cb o = Some blk →
     ∃ s', exec (Sp_assign a b) s = Some s' ∧
       owners s' =
         <[a := shared_ptr.mk (Some blk) (shared_ptr.ptr o)]> (owners s) ∧
       shared_ptr.use_count o (world s') =
         Some (Z.of_nat (strong_handles blk s)
               + if decide (shared_ptr.cb h = Some blk) then 0 else 1)).
Proof.
  split_and!.
  - intros a hs w [h Ha]. unfold shared_ptr.assign.
    rewrite bool_decide_eq_false_2 by (intros ?; done). by rewrite Ha.
  - intros a b hs w h o Hne Ha Hb. unfold shared_ptr.assign.
    rewrite bool_decide_eq_true_2 by done. rewrite Hb. simpl.
    destruct (shared_ptr.copy o w) as [[tmp w1]|]; [|done]. simpl.
    rewrite Ha. simpl. destruct tmp, h. simpl.
    by destruct (shared_ptr.destroy _ w1).
  - intros a b hs w h o blk c Hne Ha Hb Hh Ho Hc Hs.
    assert (Hcopy : shared_ptr.copy o w =
              Some (shared_ptr.mk (Some blk) (shared_ptr.ptr o),
                    store_block blk (set_strong (strong_ref_ c + 1) c) w)).
    { unfold shared_ptr.copy. rewrite Ho. simpl.
      by rewrite (inc_strong_ref_eq blk c w Hc) by lia. }
    split.
    + eexists _, _. split; [exact Hcopy|].
      unfold get_strong_ref_count, store_block. simpl.
      by rewrite lookup_insert_eq.
    + unfold shared_ptr.assign.
      rewrite bool_decide_eq_true_2 by done. rewrite Hb. simpl.
      rewrite Hcopy. simpl. rewrite Ha. simpl.
      unfold shared_ptr.destroy. simpl. rewrite Hh.
      rewrite (dec_strong_ref_eq blk (set_strong (strong_ref_ c + 1) c));
        [|simpl; by rewrite lookup_insert_eq|simpl; lia].
      simpl.
      destruct (Z.eqb_spec (strong_ref_ c + 1) 1) as [E|E]; [lia|]. simpl.
      rewrite insert_insert_eq, set_strong_back, set_strong_id.
      rewrite (insert_id (heap w) blk c Hc). by destruct w.
  - intros prog s a b h o blk Hrun Hlen Hne Ha Hb Ho.
    destruct (reachable_wf_room prog 1 s Hrun Hlen) as [Hwf Hroom].
    destruct (exec_Sp_assign_wf a b s Hwf Hroom) as (s' & Hex & Hwf' & _).
    { unfold scoped, declared. simpl. by rewrite Ha, Hb. }
    exists s'. split; [done|].
    assert (Hown : owners s' =
              <[a := shared_ptr.mk (Some blk) (shared_ptr.ptr o)]> (owners s)).
    { destruct s as [w sp wp]. simpl in *. unfold shared_ptr.assign in Hex.
      rewrite bool_decide_eq_true_2 in Hex by done.
      rewrite Hb in Hex. simpl in Hex.
      destruct (shared_ptr.copy o w) as [[tmp w1]|] eqn:Hcopy; [|done].
      simpl in Hex. rewrite Ha in Hex. simpl in Hex.
      destruct (shared_ptr.destroy _ w1) as [w2|]; [|done].
      simpl in Hex. injection Hex as <-. simpl.
      unfold shared_ptr.copy in Hcopy. rewrite Ho in Hcopy. simpl in Hcopy.
      destruct (inc_strong_ref blk w); [|done].
      simpl in Hcopy. by injection Hcopy as <- _. }
    split; [done|].
    assert (Hb' : owners s' !! b = Some o).
    { rewrite Hown. by rewrite lookup_insert_ne. }
    rewrite (wf_use_count s' b o Hwf' Hb'), Ho. f_equal.
    unfold strong_handles. rewrite Hown.
    pose proof (refs_insert shared_ptr.cb (owners s) a h
                  (shared_ptr.mk (Some blk) (shared_ptr.ptr o)) blk Ha) as Hr.
    simpl in Hr. rewrite tick_same in Hr. unfold tick in Hr.
    case_decide; lia.
Qed.

Lemma copy_assignment_acquires_first_witness :
  shared_ptr.assign 0 0 (owners two_owners) (world two_owners)
    = Some (owners two_owners, world two_owners) ∧
  shared_ptr.assign 0 1 (owners two_owners) (world two_owners)
    = Some (owners two_owners, world two_owners).
Proof.
  split.
  - apply (proj1 copy_assignment_acquires_first). eexists. reflexivity.
  - assert (Hne : 0%nat ≠ 1%nat) by lia.
    assert (Hs : 0 < strong_ref_ (mk_control_block 2 0 obj_block) < SIZE_MAX)
      by (simpl; unfold SIZE_MAX; lia).
    exact (proj2 (proj1 (proj2 (proj2 copy_assignment_acquires_first))
                    0%nat 1%nat (owners two_owners) (world two_owners)
                    (shared_ptr.of_obj_block 1%positive)
                    (shared_ptr.of_obj_block 1%positive) 1%positive
                    (mk_control_block 2 0 obj_block)
                    Hne eq_refl eq_refl eq_refl eq_refl eq_refl Hs)).
Defined.

(** C8. [a == b] holds exactly when the stored pointers are the same, and
    [a != b] is its negation.  The blocks play no part: a handle made by
    the aliasing constructor with pointer [p] equals every handle whose
    stored pointer is [p], and two handles without a pointer -- default
    constructed, constructed from [nullptr], moved from -- are equal. *)
Theorem equality_compares_pointers :
  (∀ a b : shared_ptr.t,
     shared_ptr.eqb a b = true ↔ shared_ptr.ptr a = shared_ptr.ptr b) ∧
  (∀ a b : shared_ptr.t, shared_ptr.neqb a b = negb (shared_ptr.eqb a b)) ∧
  (∀ (a b : shared_ptr.t) (ca cb : option loc),
     shared_ptr.eqb (shared_ptr.mk ca (shared_ptr.ptr a))
                    (shared_ptr.mk cb (shared_ptr.ptr b))
       = shared_ptr.eqb a b) ∧
  (∀ (other k h : shared_ptr.t) (p : pointer) (w w' : World),
     shared_ptr.alias other p w = Some (h, w') →
     shared_ptr.ptr k = p →
     shared_ptr.eqb h k = true ∧ shared_ptr.neqb h k = false) ∧
  (∀ a b : shared_ptr.t,
     shared_ptr.get a = nullptr → shared_ptr.get b = nullptr →
     shared_ptr.eqb a b = true) ∧
  shared_ptr.eqb shared_ptr.default shared_ptr.of_nullptr = true ∧
  (∀ o : shared_ptr.t,
     shared_ptr.eqb (shared_ptr.move o).2 shared_ptr.default = true).
Proof.
  split_and!.
  - intros a b. unfold shared_ptr.eqb. apply bool_decide_eq_true.
  - intros a b. unfold shared_ptr.neqb, shared_ptr.eqb.
    by rewrite bool_decide_not.
  - done.
  - intros other k h p w w' Ha Hk. unfold shared_ptr.alias in Ha. simpl in Ha.
    assert (Hp : shared_ptr.ptr h = p).
    { destruct (shared_ptr.cb other); simpl in Ha.
      - destruct (inc_strong_ref _ w); [|done]. simpl in Ha.
        by injection Ha as <- _.
      - by injection Ha as <- _. }
    unfold shared_ptr.eqb, shared_ptr.neqb.
    rewrite bool_decide_eq_true_2, bool_decide_eq_false_2; [done| |];
      congruence.
  - intros a b Ha Hb. unfold shared_ptr.eqb, shared_ptr.get in *.
    apply bool_decide_eq_true. congruence.
  - done.
  - done.
Qed.

Lemma equality_compares_pointers_witness :
  shared_ptr.eqb (shared_ptr.mk (Some 1%positive) (object_at 9))
                 (shared_ptr.mk None (object_at 9)) = true.
Proof.
  apply (proj1 (proj2 (proj2 (proj2 equality_compares_pointers)))
           (shared_ptr.of_obj_block 1%positive)
           (shared_ptr.mk None (object_at 9))
           (shared_ptr.mk (Some 1%positive) (object_at 9)) (object_at 9)
           sole_owner_world
           (mk_World {[1%positive := mk_control_block 2 0 obj_block]}
                     2%positive [Alloc 1%positive]));
    reflexivity.
Defined.

(** C9. The aliasing constructor applied to a source without a block and
    to a pointer [p] that is not null makes a handle without a block: the
    world is untouched, [get] is [p], the handle converts to [true],
    [use_count] is 0, and destroying or resetting the handle leaves the
    world untouched as well: no decrement, no disposal, no deallocation. *)
Theorem alias_of_empty_has_no_block :
  ∀ (other : shared_ptr.t) (p : pointer) (w : World),
    shared_ptr.cb other = None → p ≠ nullptr →
    ∃ h, shared_ptr.alias other p w = Some (h, w) ∧
         shared_ptr.cb h = None ∧
         shared_ptr.get h = p ∧
         shared_ptr.to_bool h = true ∧
         shared_ptr.use_count h w = Some 0 ∧
         shared_ptr.destroy h w = Some w ∧
         ∀ (x : var) (hs : gmap var shared_ptr.t),
           hs !! x = Some h →
           shared_ptr.reset x hs w = Some (<[x := shared_ptr.default]> hs, w).
Proof.
  intros other p w Hcb Hp. exists (shared_ptr.mk None p).
  unfold shared_ptr.alias. simpl. rewrite Hcb. split_and!; try done.
  - unfold shared_ptr.to_bool. simpl. by apply bool_decide_eq_true.
  - intros x hs Hx. unfold shared_ptr.reset. by rewrite Hx.
Qed.

Lemma alias_of_empty_has_no_block_witness :
  ∃ h, shared_ptr.alias shared_ptr.default (object_at 5) sole_owner_world
         = Some (h, sole_owner_world) ∧
       shared_ptr.use_count h sole_owner_world = Some 0.
Proof.
  destruct (alias_of_empty_has_no_block shared_ptr.default (object_at 5)
              sole_owner_world eq_refl) as (h & Ha & _ & _ & _ & Hu & _).
  - discriminate.
  - exists h. split; [exact Ha|exact Hu].
Defined.

(** C10. The constructor from a raw pointer that is null allocates a
    control block all the same: the handle has a block with strong count
    1, [use_count] is 1, [get] is null, the handle converts to [false] and
    equals a default-constructed handle, which has no block and
    [use_count] 0.  Destroying it calls the deleter once, on the null
    pointer, and then deletes the block. *)
Theorem null_raw_pointer_gets_a_block :
  ∀ (d : deleter) (w : World),
    ∃ h w', shared_ptr.of_raw Built nullptr d w = (Normal h, w') ∧
      shared_ptr.cb h = Some (next w) ∧
      heap w' !! next w = Some (mk_control_block 1 0 (ptr_block nullptr d)) ∧
      shared_ptr.use_count h w' = Some 1 ∧
      shared_ptr.get h = nullptr ∧
      shared_ptr.to_bool h = false ∧
      shared_ptr.eqb h shared_ptr.default = true ∧
      shared_ptr.cb shared_ptr.default = None ∧
      shared_ptr.cb shared_ptr.of_nullptr = None ∧
      shared_ptr.use_count shared_ptr.of_nullptr w' = Some 0 ∧
      ∃ w'', shared_ptr.destroy h w' = Some w'' ∧
        trace w'' = trace w' ++ [Unlink (next w) (Deleter d nullptr);
                                 DeleteThis (next w)] ∧
        count (is_call d nullptr) (trace w'')
          = S (count (is_call d nullptr) (trace w')) ∧
        heap w'' !! next w = None.
Proof.
  intros d w. unfold shared_ptr.of_raw. simpl. eexists _, _.
  split; [done|]. simpl. rewrite lookup_insert_eq.
  unfold shared_ptr.use_count, get_strong_ref_count. simpl.
  rewrite lookup_insert_eq. simpl. split_and!; try done.
  unfold shared_ptr.destroy. simpl.
  rewrite (dec_strong_ref_eq (next w) (new_ptr_block nullptr d));
    [|simpl; by rewrite lookup_insert_eq|done].
  simpl. eexists. split; [done|]. simpl. split_and!.
  - done.
  - rewrite snoc2, !count_snoc. simpl.
    rewrite bool_decide_eq_true_2 by done. lia.
  - by rewrite lookup_delete_eq.
Qed.

(** ** Further properties of the code *)


(** X1. No handle of a program dangles.  The block of a live owning
    handle is allocated, has a strong count of at least one and has been
    neither disposed nor deallocated; the block of a live weak handle is
    allocated and has a weak count of at least one. *)
Theorem handles_never_dangle :
  ∀ (prog : list stmt) (s : State),
    run prog initial = Some s → Z.of_nat (length prog) < SIZE_MAX →
    (∀ x h b, owners s !! x = Some h → shared_ptr.cb h = Some b →
       ∃ c, heap (world s) !! b = Some c ∧ 1 ≤ strong_ref_ c ∧
            disposals b (trace (world s)) = 0%nat ∧
            deallocations b (trace (world s)) = 0%nat) ∧
    (∀ y k b, observers s !! y = Some k → weak_ptr.cb k = Some b →
       ∃ c, heap (world s) !! b = Some c ∧ 1 ≤ weak_ref_ c ∧
            deallocations b (trace (world s)) = 0%nat).
Proof.
  intros prog s Hrun Hlen.
  destruct (reachable_wf prog s Hrun Hlen) as [Hwf _]. split.
  - intros x h b Hx Hb.
    pose proof (refs_pos shared_ptr.cb (owners s) x h b Hx Hb) as Hpos.
    destruct (consistent_live _ _ _ b Hwf) as (c & Hc & Hs & _);
      [unfold strong_handles; lia|].
    destruct (wf_block s b Hwf) as (_ & _ & Hlive & _).
    destruct (Hlive c Hc) as (_ & _ & _ & Hf & Hd & _).
    unfold strong_handles in Hs.
    exists c. split_and!; [done|lia| |done]. apply Hd. lia.
  - intros y k b Hy Hb.
    pose proof (refs_pos weak_ptr.cb (observers s) y k b Hy Hb) as Hpos.
    destruct (consistent_live _ _ _ b Hwf) as (c & Hc & _ & Hk & _);
      [unfold weak_handles; lia|].
    destruct (wf_block s b Hwf) as (_ & _ & Hlive & _).
    destruct (Hlive c Hc) as (_ & _ & _ & Hf & _).
    unfold weak_handles in Hk.
    exists c. split_and!; [done|lia|done].
Qed.

Lemma handles_never_dangle_witness :
  (∃ c, heap (world raw_owner) !! 1%positive = Some c ∧ 1 ≤ strong_ref_ c ∧
        disposals 1%positive (trace (world raw_owner)) = 0%nat ∧
        deallocations 1%positive (trace (world raw_owner)) = 0%nat) ∧
  (∃ c, heap (world scenario_end) !! 1%positive = Some c ∧ 1 ≤ weak_ref_ c ∧
        deallocations 1%positive (trace (world scenario_end)) = 0%nat).
Proof.
  split.
  - exact (proj1 (handles_never_dangle [Sp_raw 0 (object_at 7) 3%nat Built]
                    raw_owner eq_refl eq_refl)
             0%nat (shared_ptr.mk (Some 1%positive) (object_at 7)) 1%positive
             eq_refl eq_refl).
  - exact (proj2 (handles_never_dangle scenario scenario_end eq_refl eq_refl)
             0%nat scenario_weak 1%positive eq_refl eq_refl).
Defined.

(** X2. For deleters and destructors that touch no handle: in a state
    reached by a program, a statement runs exactly when its names are in
    scope, so no constructor, destructor or member function of a handle
    reads a control block that has been deleted.  (A pointee that releases
    a handle of its own block breaks this.) *)
Theorem scoped_statements_run :
  ∀ (prog : list stmt) (s : State) (c : stmt),
    run prog initial = Some s → Z.of_nat (length prog + 1) < SIZE_MAX →
    (is_Some (exec c s) ↔ scoped c s = true).
Proof.
  intros prog s c Hrun Hlen.
  destruct (reachable_wf_room prog 1 s Hrun Hlen) as [Hwf Hroom]. split.
  - intros [s' Hex]. by eapply exec_scoped.
  - intros Hsc. destruct (exec_wf c s Hwf Hroom Hsc) as (s' & Hex & _).
    by exists s'.
Qed.

Lemma scoped_statements_run_witness :
  is_Some (exec (Sp_destroy 0) raw_owner) ↔
  scoped (Sp_destroy 0) raw_owner = true.
Proof.
  exact (scoped_statements_run [Sp_raw 0 (object_at 7) 3%nat Built] raw_owner
           (Sp_destroy 0) eq_refl eq_refl).
Defined.







(** X6. Assigning an empty handle -- default constructed, constructed from
    [nullptr], or moved from -- to another handle object does what [reset]
    does to it, in every state. *)
Theorem assigning_an_empty_handle_resets :
  ∀ (x y : var) (s : State),
    x ≠ y → owners s !! y = Some shared_ptr.default →
    exec (Sp_assign x y) s = exec (Sp_reset x) s.
Proof.
  intros x y [w sp wp] Hne Hy. simpl in *.
  unfold shared_ptr.assign, shared_ptr.reset.
  rewrite bool_decide_eq_true_2 by done. rewrite Hy. simpl.
  by destruct (sp !! x) as [h|].
Qed.

Lemma assigning_an_empty_handle_resets_witness :
  exec (Sp_assign 0 1) (mk_State (world raw_owner)
                          (<[1%nat := shared_ptr.default]> (owners raw_owner)) ∅)
  = exec (Sp_reset 0) (mk_State (world raw_owner)
                         (<[1%nat := shared_ptr.default]> (owners raw_owner)) ∅).
Proof.
  apply assigning_an_empty_handle_resets with (y := 1%nat).
  - lia.
  - reflexivity.
Defined.

Lemma sp_eta h :
  shared_ptr.mk (shared_ptr.cb h) (shared_ptr.ptr h) = h.
Proof. by destruct h. Qed.

Lemma wp_eta h : weak_ptr.mk (weak_ptr.cb h) (weak_ptr.ptr h) = h.
Proof. by destruct h. Qed.

(** X7. [x.swap(y)] on owning handles exchanges what the two objects hold
    and touches nothing else: the other handle objects keep their values,
    the number of owners of every block is as before, swapping in the
    other direction gives the same result, and swapping again gives the
    frame back. *)
Theorem swap_exchanges_and_undoes :
  ∀ (x y : var) (hs hs' : gmap var shared_ptr.t),
    shared_ptr.swap_objects x y hs = Some hs' →
    hs' !! x = hs !! y ∧ hs' !! y = hs !! x ∧
    (∀ z, z ≠ x → z ≠ y → hs' !! z = hs !! z) ∧
    (∀ b, refs shared_ptr.cb b hs' = refs shared_ptr.cb b hs) ∧
    shared_ptr.swap_objects y x hs = Some hs' ∧
    shared_ptr.swap_objects x y hs' = Some hs.
Proof.
  intros x y hs hs' Hsw. unfold shared_ptr.swap_objects in *.
  destruct (hs !! x) as [h|] eqn:Hx; [|done]. simpl in Hsw.
  destruct (hs !! y) as [o|] eqn:Hy; [|done]. simpl in Hsw.
  rewrite !sp_eta in Hsw. injection Hsw as <-. simpl. rewrite !sp_eta.
  destruct (decide (x = y)) as [->|Hne].
  - simplify_eq. rewrite insert_insert_eq, lookup_insert_eq. simpl.
    rewrite !sp_eta, !insert_insert_eq, !(insert_id hs y h Hx).
    by split_and!.
  - assert (Heq : <[y := h]> (<[x := o]> hs) = <[x := o]> (<[y := h]> hs))
      by by apply insert_insert_ne.
    assert (Hy' : <[x := o]> hs !! y = Some o) by by rewrite lookup_insert_ne.
    split_and!.
    + by rewrite lookup_insert_ne, lookup_insert_eq.
    + by rewrite lookup_insert_eq.
    + intros z Hzx Hzy. by rewrite !lookup_insert_ne.
    + intros b. count_refs.
    + by rewrite Heq.
    + assert (Hx2 : <[y := h]> (<[x := o]> hs) !! x = Some o)
        by (rewrite lookup_insert_ne by congruence; apply lookup_insert_eq).
      rewrite Hx2. simpl. rewrite lookup_insert_eq. simpl.
      rewrite !sp_eta. f_equal.
      rewrite (insert_insert_ne _ x y) by done.
      rewrite !insert_insert_eq.
      by rewrite (insert_id hs x h Hx), (insert_id hs y o Hy).
Qed.

Lemma swap_exchanges_and_undoes_witness :
  shared_ptr.swap_objects 0 1
    (<[1%nat := shared_ptr.default]> (owners raw_owner))
  = Some (<[1%nat := shared_ptr.mk (Some 1%positive) (object_at 7)]>
            {[0%nat := shared_ptr.default]}) ∧
  shared_ptr.swap_objects 0 1
    (<[1%nat := shared_ptr.mk (Some 1%positive) (object_at 7)]>
       {[0%nat := shared_ptr.default]})
  = Some (<[1%nat := shared_ptr.default]> (owners raw_owner)).
Proof.
  split; [reflexivity|].
  exact (proj2 (proj2 (proj2 (proj2 (proj2
    (swap_exchanges_and_undoes 0%nat 1%nat
       (<[1%nat := shared_ptr.default]> (owners raw_owner))
       (<[1%nat := shared_ptr.mk (Some 1%positive) (object_at 7)]>
          {[0%nat := shared_ptr.default]})
       eq_refl)))))).
Defined.

(** X8. [x.swap(y)] on weak handles exchanges what the two objects hold
    and touches nothing else: the other handle objects keep their values,
    the number of weak handles of every block is as before, swapping in the
    other direction gives the same result, and swapping again gives the
    frame back. *)
Theorem weak_swap_exchanges_and_undoes :
  ∀ (x y : var) (hs hs' : gmap var weak_ptr.t),
    weak_ptr.swap_objects x y hs = Some hs' →
    hs' !! x = hs !! y ∧ hs' !! y = hs !! x ∧
    (∀ z, z ≠ x → z ≠ y → hs' !! z = hs !! z) ∧
    (∀ b, refs weak_ptr.cb b hs' = refs weak_ptr.cb b hs) ∧
    weak_ptr.swap_objects y x hs = Some hs' ∧
    weak_ptr.swap_objects x y hs' = Some hs.
Proof.
  intros x y hs hs' Hsw. unfold weak_ptr.swap_objects in *.
  destruct (hs !! x) as [h|] eqn:Hx; [|done]. simpl in Hsw.
  destruct (hs !! y) as [o|] eqn:Hy; [|done]. simpl in Hsw.
  rewrite !wp_eta in Hsw. injection Hsw as <-. simpl. rewrite !wp_eta.
  destruct (decide (x = y)) as [->|Hne].
  - simplify_eq. rewrite insert_insert_eq, lookup_insert_eq. simpl.
    rewrite !wp_eta, !insert_insert_eq, !(insert_id hs y h Hx).
    by split_and!.
  - assert (Heq : <[y := h]> (<[x := o]> hs) = <[x := o]> (<[y := h]> hs))
      by by apply insert_insert_ne.
    assert (Hy' : <[x := o]> hs !! y = Some o) by by rewrite lookup_insert_ne.
    split_and!.
    + by rewrite lookup_insert_ne, lookup_insert_eq.
    + by rewrite lookup_insert_eq.
    + intros z Hzx Hzy. by rewrite !lookup_insert_ne.
    + intros b. count_refs.
    + by rewrite Heq.
    + assert (Hx2 : <[y := h]> (<[x := o]> hs) !! x = Some o)
        by (rewrite lookup_insert_ne by congruence; apply lookup_insert_eq).
      rewrite Hx2. simpl. rewrite lookup_insert_eq. simpl.
      rewrite !wp_eta. f_equal.
      rewrite (insert_insert_ne _ x y) by done.
      rewrite !insert_insert_eq.
      by rewrite (insert_id hs x h Hx), (insert_id hs y o Hy).
Qed.

Lemma weak_swap_exchanges_and_undoes_witness :
  weak_ptr.swap_objects 0 1
    (<[1%nat := weak_ptr.default]> (observers scenario_end))
  = Some (<[1%nat := scenario_weak]> {[0%nat := weak_ptr.default]}) ∧
  weak_ptr.swap_objects 0 1
    (<[1%nat := scenario_weak]> {[0%nat := weak_ptr.default]})
  = Some (<[1%nat := weak_ptr.default]> (observers scenario_end)).
Proof.
  split; [reflexivity|].
  exact (proj2 (proj2 (proj2 (proj2 (proj2
    (weak_swap_exchanges_and_undoes 0%nat 1%nat
       (<[1%nat := weak_ptr.default]> (observers scenario_end))
       (<[1%nat := scenario_weak]> {[0%nat := weak_ptr.default]})
       eq_refl)))))).
Defined.

Lemma set_weak_back c n :
  set_weak (n + 1 - 1) (set_weak (n + 1) c) = set_weak n c.
Proof. unfold set_weak. simpl. f_equal. lia. Qed.

Lemma set_weak_id c : set_weak (weak_ref_ c) c = c.
Proof. by destruct c. Qed.

(** One more owner and one less: the world is as it was. *)
Lemma inc_dec_strong_ref w b c :
  heap w !! b = Some c → 0 < strong_ref_ c < SIZE_MAX →
  ∃ w1, inc_strong_ref b w = Some w1 ∧
        get_strong_ref_count b w1 = Some (strong_ref_ c + 1) ∧
        trace w1 = trace w ∧
        dec_strong_ref b w1 = Some w.
Proof.
  intros Hc Hs. rewrite (inc_strong_ref_eq b c w Hc) by lia.
  eexists. split; [done|]. unfold store_block.
  rewrite get_strong_ref_count_stored. simpl. split; [done|]. split; [done|].
  rewrite (dec_strong_ref_eq b (set_strong (strong_ref_ c + 1) c));
    [|simpl; by rewrite lookup_insert_eq|simpl; lia].
  simpl. destruct (Z.eqb_spec (strong_ref_ c + 1) 1) as [E|E]; [lia|].
  rewrite insert_insert_eq, set_strong_back, set_strong_id.
  rewrite (insert_id (heap w) b c Hc). by destruct w.
Qed.

Lemma inc_dec_weak_ref w b c :
  heap w !! b = Some c → 0 ≤ weak_ref_ c < SIZE_MAX →
  strong_ref_ c ≠ 0 ∨ weak_ref_ c ≠ 0 →
  ∃ w1, inc_weak_ref b w = Some w1 ∧ trace w1 = trace w ∧
        dec_weak_ref b w1 = Some w.
Proof.
  intros Hc Hk Hlive. rewrite (inc_weak_ref_eq b c w Hc) by lia.
  eexists. split; [done|]. split; [done|].
  rewrite (dec_weak_ref_eq b (set_weak (weak_ref_ c + 1) c));
    [|unfold store_block; simpl; by rewrite lookup_insert_eq|simpl; lia].
  simpl.
  assert ((strong_ref_ c =? 0) && (weak_ref_ c + 1 =? 1) = false) as ->.
  { destruct (Z.eqb_spec (strong_ref_ c) 0); [|done].
    destruct (Z.eqb_spec (weak_ref_ c + 1) 1); [lia|done]. }
  rewrite insert_insert_eq, set_weak_back, set_weak_id.
  rewrite (insert_id (heap w) b c Hc). by destruct w.
Qed.

(** X9. Taking an owning reference and destroying the handle obtained
    leaves the world exactly as it was, for each way of taking one from a
    block that has an owner: the copy constructor, the aliasing constructor
    and [lock].  In between the count reads one more; nothing is disposed
    and nothing is deleted. *)
Theorem owning_reference_round_trip :
  ∀ (w : World) (b : loc) (c : control_block),
    heap w !! b = Some c → 0 < strong_ref_ c < SIZE_MAX →
    (∀ o, shared_ptr.cb o = Some b →
       ∃ h w1, shared_ptr.copy o w = Some (h, w1) ∧ h = o ∧
               shared_ptr.use_count h w1 = Some (strong_ref_ c + 1) ∧
               shared_ptr.destroy h w1 = Some w) ∧
    (∀ o p, shared_ptr.cb o = Some b →
       ∃ h w1, shared_ptr.alias o p w = Some (h, w1) ∧
               h = shared_ptr.mk (Some b) p ∧
               shared_ptr.use_count h w1 = Some (strong_ref_ c + 1) ∧
               shared_ptr.destroy h w1 = Some w) ∧
    (∀ k, weak_ptr.cb k = Some b →
       ∃ h w1, weak_ptr.lock k w = Some (h, w1) ∧
               h = shared_ptr.mk (Some b) (weak_ptr.ptr k) ∧
               shared_ptr.use_count h w1 = Some (strong_ref_ c + 1) ∧
               shared_ptr.destroy h w1 = Some w).
Proof.
  intros w b c Hc Hs.
  destruct (inc_dec_strong_ref w b c Hc Hs) as (w1 & Hinc & Hget & _ & Hdec).
  split_and!.
  - intros o Ho. exists o, w1. unfold shared_ptr.copy. simpl.
    rewrite Ho, Hinc. simpl. rewrite <- Ho, sp_eta.
    unfold shared_ptr.use_count, shared_ptr.destroy. rewrite Ho. done.
  - intros o p Ho. exists (shared_ptr.mk (Some b) p), w1.
    unfold shared_ptr.alias. simpl. rewrite Ho, Hinc. done.
  - intros k Hk. exists (shared_ptr.mk (Some b) (weak_ptr.ptr k)), w1.
    unfold weak_ptr.lock, get_strong_ref_count. rewrite Hk, Hc. simpl.
    destruct (Z.eqb_spec (strong_ref_ c) 0) as [E|E]; [lia|].
    rewrite Hinc. done.
Qed.

Lemma owning_reference_round_trip_witness :
  ∃ h w1, weak_ptr.lock scenario_weak shared_world = Some (h, w1) ∧
          shared_ptr.destroy h w1 = Some shared_world.
Proof.
  assert (Hs : 0 < strong_ref_ (mk_control_block 2 1 obj_block) < SIZE_MAX)
    by (simpl; unfold SIZE_MAX; lia).
  destruct (proj2 (proj2 (owning_reference_round_trip shared_world 1%positive
                            (mk_control_block 2 1 obj_block) eq_refl Hs))
              scenario_weak eq_refl) as (h & w1 & Hl & _ & _ & Hd).
  exists h, w1. split; [exact Hl|exact Hd].
Defined.

(** X10. Taking a weak reference and destroying the weak handle obtained
    leaves the world exactly as it was, for the copy constructor of
    [weak_ptr] and for the constructor from an owning handle, on a block
    that some handle holds. *)
Theorem weak_reference_round_trip :
  ∀ (w : World) (b : loc) (c : control_block),
    heap w !! b = Some c → 0 ≤ weak_ref_ c < SIZE_MAX →
    strong_ref_ c ≠ 0 ∨ weak_ref_ c ≠ 0 →
    (∀ k, weak_ptr.cb k = Some b →
       ∃ h w1, weak_ptr.copy k w = Some (h, w1) ∧ h = k ∧
               trace w1 = trace w ∧
               weak_ptr.destroy h w1 = Some w) ∧
    (∀ o, shared_ptr.cb o = Some b →
       ∃ h w1, weak_ptr.of_shared o w = Some (h, w1) ∧
               h = weak_ptr.mk (Some b) (shared_ptr.ptr o) ∧
               trace w1 = trace w ∧
               weak_ptr.destroy h w1 = Some w).
Proof.
  intros w b c Hc Hk Hlive.
  destruct (inc_dec_weak_ref w b c Hc Hk Hlive) as (w1 & Hinc & Ht & Hdec).
  split.
  - intros k Hcb. exists k, w1. unfold weak_ptr.copy. simpl.
    rewrite Hcb, Hinc. simpl. rewrite <- Hcb, wp_eta.
    unfold weak_ptr.destroy. rewrite Hcb. done.
  - intros o Ho. exists (weak_ptr.mk (Some b) (shared_ptr.ptr o)), w1.
    unfold weak_ptr.of_shared. simpl. rewrite Ho, Hinc. done.
Qed.

Lemma weak_reference_round_trip_witness :
  ∃ h w1, weak_ptr.copy scenario_weak (world scenario_end) = Some (h, w1) ∧
          weak_ptr.destroy h w1 = Some (world scenario_end).
Proof.
  assert (Hk : 0 ≤ weak_ref_ (mk_control_block 0 1 obj_block) < SIZE_MAX)
    by (simpl; unfold SIZE_MAX; lia).
  assert (Hl : strong_ref_ (mk_control_block 0 1 obj_block) ≠ 0 ∨
               weak_ref_ (mk_control_block 0 1 obj_block) ≠ 0)
    by (right; simpl; lia).
  destruct (proj1 (weak_reference_round_trip (world scenario_end) 1%positive
                     (mk_control_block 0 1 obj_block) eq_refl Hk Hl)
              scenario_weak eq_refl) as (h & w1 & Hc & _ & _ & Hd).
  exists h, w1. split; [exact Hc|exact Hd].
Defined.

(** X11. A weak handle made from an owning handle gives it back: [lock]
    returns a handle with the block and the pointer of the source, and
    [use_count] one higher.  From a source that has no block, the weak
    handle has none either and [lock] returns a null handle, whatever
    pointer the source stored. *)
Theorem lock_returns_the_observed_handle :
  (∀ (o : shared_ptr.t) (w : World) (b : loc) (c : control_block),
     shared_ptr.cb o = Some b → heap w !! b = Some c →
     0 < strong_ref_ c < SIZE_MAX → 0 ≤ weak_ref_ c < SIZE_MAX →
     ∃ k w1 h w2,
       weak_ptr.of_shared o w = Some (k, w1) ∧
       weak_ptr.lock k w1 = Some (h, w2) ∧
       h = o ∧ shared_ptr.use_count h w2 = Some (strong_ref_ c + 1) ∧
       trace w2 = trace w)
  ∧
  (∀ (o : shared_ptr.t) (w : World),
     shared_ptr.cb o = None →
     ∃ k, weak_ptr.of_shared o w = Some (k, w) ∧
          weak_ptr.cb k = None ∧
          weak_ptr.lock k w = Some (shared_ptr.default, w)).
Proof.
  split.
  - intros o w b c Ho Hc Hs Hk.
    unfold weak_ptr.of_shared. simpl. rewrite Ho.
    rewrite (inc_weak_ref_eq b c w Hc) by lia. simpl.
    eexists _, _, _, _. split; [reflexivity|].
    unfold weak_ptr.lock. simpl. unfold store_block.
    rewrite get_strong_ref_count_stored. simpl.
    destruct (Z.eqb_spec (strong_ref_ c) 0) as [E|E]; [lia|].
    rewrite (inc_strong_ref_eq b (set_weak (weak_ref_ c + 1) c));
      [|simpl; by rewrite lookup_insert_eq|simpl; lia].
    simpl. split; [reflexivity|].
    split; [by rewrite <- Ho, sp_eta|].
    unfold shared_ptr.use_count, store_block. simpl.
    by rewrite get_strong_ref_count_stored.
  - intros o w Ho. unfold weak_ptr.of_shared. simpl. rewrite Ho.
    eexists. split; [done|]. done.
Qed.

Lemma lock_returns_the_observed_handle_witness :
  ∃ k w1 h w2,
    weak_ptr.of_shared (shared_ptr.of_obj_block 1%positive) shared_world
      = Some (k, w1) ∧
    weak_ptr.lock k w1 = Some (h, w2) ∧
    h = shared_ptr.of_obj_block 1%positive.
Proof.
  assert (Hs : 0 < strong_ref_ (mk_control_block 2 1 obj_block) < SIZE_MAX)
    by (simpl; unfold SIZE_MAX; lia).
  assert (Hk : 0 ≤ weak_ref_ (mk_control_block 2 1 obj_block) < SIZE_MAX)
    by (simpl; unfold SIZE_MAX; lia).
  destruct (proj1 lock_returns_the_observed_handle
              (shared_ptr.of_obj_block 1%positive) shared_world 1%positive
              (mk_control_block 2 1 obj_block) eq_refl eq_refl Hs Hk)
    as (k & w1 & h & w2 & Hof & Hl & Hh & _).
  exists k, w1, h, w2. split; [exact Hof|]. split; [exact Hl|exact Hh].
Defined.

(** X12. The counters are not checked against their range.  Dropping an
    owning reference of a block whose strong count is zero stores
    [SIZE_MAX], disposes nothing and deletes nothing; dropping a weak
    reference of a block whose weak count is zero stores [SIZE_MAX] and
    deletes nothing; taking an owning reference at [SIZE_MAX] stores zero,
    after which [lock] refuses the block. *)
Theorem counters_wrap_around :
  ∀ (w : World) (b : loc) (c : control_block),
    heap w !! b = Some c →
    (strong_ref_ c = 0 →
       dec_strong_ref b w = Some (store_block b (set_strong SIZE_MAX c) w)) ∧
    (weak_ref_ c = 0 →
       dec_weak_ref b w = Some (store_block b (set_weak SIZE_MAX c) w)) ∧
    (strong_ref_ c = SIZE_MAX →
       ∃ w1, inc_strong_ref b w = Some w1 ∧
             get_strong_ref_count b w1 = Some 0 ∧
             ∀ k, weak_ptr.cb k = Some b →
                  weak_ptr.lock k w1 = Some (shared_ptr.default, w1)).
Proof.
  intros w b c Hc.
  assert (Hm : size_t (0 - 1) = SIZE_MAX) by reflexivity.
  split_and!.
  - intros Hs.
    unfold dec_strong_ref, dec_strong_ref_with, get_strong_ref_count,
      get_weak_ref, store_block.
    rewrite Hc. simpl. rewrite Hs, Hm, !lookup_insert_eq. simpl.
    by rewrite !lookup_insert_eq.
  - intros Hk.
    unfold dec_weak_ref, get_strong_ref_count, get_weak_ref, store_block.
    rewrite Hc. simpl. rewrite Hk, Hm, !lookup_insert_eq. simpl.
    by rewrite andb_false_r.
  - intros Hs. unfold inc_strong_ref. rewrite Hc. simpl. rewrite Hs.
    eexists. split; [reflexivity|]. unfold store_block.
    rewrite get_strong_ref_count_stored. split; [reflexivity|].
    intros k Hk. unfold weak_ptr.lock. rewrite Hk.
    by rewrite get_strong_ref_count_stored.
Qed.

Lemma counters_wrap_around_witness :
  dec_strong_ref 1%positive (world scenario_end)
  = Some (store_block 1%positive (mk_control_block SIZE_MAX 1 obj_block)
            (world scenario_end)).
Proof.
  exact (proj1 (counters_wrap_around (world scenario_end) 1%positive
                  (mk_control_block 0 1 obj_block) eq_refl) eq_refl).
Defined.


















Lemma wf_owner_block s x h b :
  wf s → room 1 s → owners s !! x = Some h → shared_ptr.cb h = Some b →
  ∃ c, heap (world s) !! b = Some c ∧ 0 < strong_ref_ c < SIZE_MAX ∧
       0 ≤ weak_ref_ c < SIZE_MAX ∧
       strong_ref_ c = Z.of_nat (strong_handles b s) ∧
       weak_ref_ c = Z.of_nat (weak_handles b s).
Proof.
  intros Hwf Hroom Hx Hb.
  pose proof (refs_pos shared_ptr.cb (owners s) x h b Hx Hb) as Hpos.
  pose proof (refs_le_size shared_ptr.cb (owners s) b) as Hle.
  pose proof (refs_le_size weak_ptr.cb (observers s) b) as Hle'.
  destruct (consistent_live _ _ _ b Hwf) as (c & Hc & Hs & Hk & _).
  { unfold strong_handles. lia. }
  exists c. unfold strong_handles, weak_handles, room in *.
  split_and!; [done|lia..].
Qed.

Lemma wf_observer_block s x k b :
  wf s → room 1 s → observers s !! x = Some k → weak_ptr.cb k = Some b →
  ∃ c, heap (world s) !! b = Some c ∧ 0 < weak_ref_ c < SIZE_MAX ∧
       0 ≤ strong_ref_ c < SIZE_MAX ∧
       strong_ref_ c = Z.of_nat (strong_handles b s) ∧
       weak_ref_ c = Z.of_nat (weak_handles b s).
Proof.
  intros Hwf Hroom Hx Hb.
  pose proof (refs_pos weak_ptr.cb (observers s) x k b Hx Hb) as Hpos.
  pose proof (refs_le_size shared_ptr.cb (owners s) b) as Hle.
  pose proof (refs_le_size weak_ptr.cb (observers s) b) as Hle'.
  destruct (consistent_live _ _ _ b Hwf) as (c & Hc & Hs & Hk & _).
  { unfold weak_handles. lia. }
  exists c. unfold strong_handles, weak_handles, room in *.
  split_and!; [done|lia..].
Qed.

(** X14. Move construction is copy construction followed by the reset of
    the source, with the counters left alone: in every state a program
    reaches, [shared_ptr<T> x(std::move(y));] ends in the state that
    [shared_ptr<T> x(y); y.reset();] ends in, and [weak_ptr<T> x(std::move(y));]
    in the state of [weak_ptr<T> x(y);] followed by destroying [y] and
    default-constructing it in place.  Both sides fail in the same cases. *)
Theorem move_is_copy_then_reset :
  ∀ (prog : list stmt) (x y : var) (s : State),
    run prog initial = Some s →
    Z.of_nat (length prog + 1) < SIZE_MAX →
    run [Sp_copy x y; Sp_reset y] s = exec (Sp_move x y) s ∧
    run [Wp_copy x y; Wp_destroy y; Wp_default y] s = exec (Wp_move x y) s.
Proof.
  intros prog x y s Hrun Hlen.
  destruct (reachable_wf_room prog 1 s Hrun Hlen) as [Hwf Hroom].
  split.
  - destruct s as [w sp wp]. simpl. unfold fresh.
    destruct (sp !! x) as [?|] eqn:Hx; [done|]. simpl.
    destruct (sp !! y) as [h|] eqn:Hy; [|done]. simpl.
    assert (Hne : x ≠ y) by congruence.
    assert (Hy' : ∀ h', <[x := h']> sp !! y = Some h)
      by (intros h'; by rewrite lookup_insert_ne).
    unfold shared_ptr.copy, shared_ptr.reset. simpl.
    destruct (shared_ptr.cb h) as [b|] eqn:Hb.
    + destruct (wf_owner_block _ y h b Hwf Hroom Hy Hb)
        as (c & Hc & Hs & _). simpl in Hc.
      destruct (inc_dec_strong_ref w b c Hc Hs) as (w1 & Hinc & _ & _ & Hdec).
      rewrite Hinc. simpl. rewrite Hy'. simpl.
      unfold shared_ptr.destroy. simpl. rewrite Hb, Hdec. simpl.
      by rewrite insert_insert_ne.
    + simpl. rewrite Hy'. simpl. unfold shared_ptr.destroy. simpl.
      rewrite Hb. simpl. by rewrite insert_insert_ne.
  - destruct s as [w sp wp]. simpl. unfold fresh.
    destruct (wp !! x) as [?|] eqn:Hx; [done|]. simpl.
    destruct (wp !! y) as [h|] eqn:Hy; [|done]. simpl.
    assert (Hne : x ≠ y) by congruence.
    assert (Hy' : ∀ h', <[x := h']> wp !! y = Some h)
      by (intros h'; by rewrite lookup_insert_ne).
    unfold weak_ptr.copy. simpl.
    destruct (weak_ptr.cb h) as [b|] eqn:Hb.
    + destruct (wf_observer_block _ y h b Hwf Hroom Hy Hb)
        as (c & Hc & Hk & _). simpl in Hc.
      destruct (inc_dec_weak_ref w b c Hc) as (w1 & Hinc & _ & Hdec);
        [lia|right; lia|].
      rewrite Hinc. simpl. rewrite Hy'. simpl.
      unfold weak_ptr.destroy. rewrite Hb, Hdec. simpl.
      rewrite lookup_delete_eq. simpl.
      by rewrite insert_delete_eq, insert_insert_ne.
    + simpl. rewrite Hy'. simpl. unfold weak_ptr.destroy. rewrite Hb. simpl.
      rewrite lookup_delete_eq. simpl.
      by rewrite insert_delete_eq, insert_insert_ne.
Qed.

Lemma move_is_copy_then_reset_witness :
  run [Sp_copy 1 0; Sp_reset 0] self_observed
  = exec (Sp_move 1 0) self_observed.
Proof.
  assert (Hlen : Z.of_nat (length self_observing + 1) < SIZE_MAX)
    by (unfold SIZE_MAX; simpl; lia).
  exact (proj1 (move_is_copy_then_reset self_observing 1 0 self_observed
                  eq_refl Hlen)).
Defined.

Lemma set_strong_twice c n m : set_strong n (set_strong m c) = set_strong n c.
Proof. done. Qed.

Lemma set_weak_twice c n m : set_weak n (set_weak m c) = set_weak n c.
Proof. done. Qed.

(** Dropping a reference of one block and taking a reference of another
    can be done in either order. *)
Lemma dec_inc_strong_ref w b c :
  heap w !! b = Some c → 1 < strong_ref_ c ≤ SIZE_MAX →
  ∃ w1, dec_strong_ref b w = Some w1 ∧ inc_strong_ref b w1 = Some w.
Proof.
  intros Hc Hs. rewrite (dec_strong_ref_eq b c w Hc) by lia.
  destruct (Z.eqb_spec (strong_ref_ c) 1) as [E|E]; [lia|].
  eexists. split; [done|].
  rewrite (inc_strong_ref_eq b (set_strong (strong_ref_ c - 1) c));
    [|simpl; by rewrite lookup_insert_eq|simpl; lia].
  unfold store_block. simpl.
  replace (strong_ref_ c - 1 + 1) with (strong_ref_ c) by lia.
  rewrite insert_insert_eq, set_strong_twice, set_strong_id.
  rewrite (insert_id (heap w) b c Hc). by destruct w.
Qed.

Lemma dec_inc_weak_ref w b c :
  heap w !! b = Some c → 0 < weak_ref_ c ≤ SIZE_MAX →
  strong_ref_ c ≠ 0 ∨ weak_ref_ c ≠ 1 →
  ∃ w1, dec_weak_ref b w = Some w1 ∧ inc_weak_ref b w1 = Some w.
Proof.
  intros Hc Hk Hlive. rewrite (dec_weak_ref_eq b c w Hc) by lia.
  assert ((strong_ref_ c =? 0) && (weak_ref_ c =? 1) = false) as ->.
  { destruct (Z.eqb_spec (strong_ref_ c) 0); [|done].
    destruct (Z.eqb_spec (weak_ref_ c) 1); [lia|done]. }
  eexists. split; [done|].
  rewrite (inc_weak_ref_eq b (set_weak (weak_ref_ c - 1) c));
    [|simpl; by rewrite lookup_insert_eq|simpl; lia].
  unfold store_block. simpl.
  replace (weak_ref_ c - 1 + 1) with (weak_ref_ c) by lia.
  rewrite insert_insert_eq, set_weak_twice, set_weak_id.
  rewrite (insert_id (heap w) b c Hc). by destruct w.
Qed.

Lemma inc_dec_strong_ref_commute w b1 b2 c1 c2 :
  b1 ≠ b2 → heap w !! b1 = Some c1 → heap w !! b2 = Some c2 →
  0 < strong_ref_ c1 ≤ SIZE_MAX → 0 ≤ strong_ref_ c2 < SIZE_MAX →
  (w1 ← inc_strong_ref b2 w; dec_strong_ref b1 w1)
  = (w1 ← dec_strong_ref b1 w; inc_strong_ref b2 w1).
Proof.
  intros Hne H1 H2 Hs1 Hs2.
  rewrite (inc_strong_ref_eq b2 c2 w H2 Hs2). simpl.
  rewrite (dec_strong_ref_eq b1 c1 _) by (by simpl; rewrite ?lookup_insert_ne).
  rewrite (dec_strong_ref_eq b1 c1 w H1 Hs1). simpl.
  destruct (strong_ref_ c1 =? 1); [destruct (weak_ref_ c1 =? 0)|].
  all: rewrite (inc_strong_ref_eq b2 c2)
         by (by simpl; rewrite ?lookup_delete_ne, ?lookup_insert_ne).
  all: unfold store_block; simpl; do 2 f_equal.
  - by rewrite delete_insert_ne.
  - by rewrite insert_insert_ne.
  - by rewrite insert_insert_ne.
Qed.

Lemma inc_dec_weak_ref_commute w b1 b2 c1 c2 :
  b1 ≠ b2 → heap w !! b1 = Some c1 → heap w !! b2 = Some c2 →
  0 < weak_ref_ c1 ≤ SIZE_MAX → 0 ≤ weak_ref_ c2 < SIZE_MAX →
  (w1 ← inc_weak_ref b2 w; dec_weak_ref b1 w1)
  = (w1 ← dec_weak_ref b1 w; inc_weak_ref b2 w1).
Proof.
  intros Hne H1 H2 Hs1 Hs2.
  rewrite (inc_weak_ref_eq b2 c2 w H2 Hs2). simpl.
  rewrite (dec_weak_ref_eq b1 c1 _) by (by simpl; rewrite ?lookup_insert_ne).
  rewrite (dec_weak_ref_eq b1 c1 w H1 Hs1). simpl.
  destruct (_ && _).
  all: rewrite (inc_weak_ref_eq b2 c2)
         by (by simpl; rewrite ?lookup_delete_ne, ?lookup_insert_ne).
  all: unfold store_block; simpl; do 2 f_equal.
  - by rewrite delete_insert_ne.
  - by rewrite insert_insert_ne.
Qed.

Lemma refs_two {A} (f : A → option loc) (hs : gmap var A) x y hx hy b :
  x ≠ y → hs !! x = Some hx → hs !! y = Some hy →
  f hx = Some b → f hy = Some b → (2 ≤ refs f b hs)%nat.
Proof.
  intros Hne Hx Hy Hbx Hby.
  pose proof (refs_delete f hs x hx b Hx) as Hd.
  assert (Hy' : delete x hs !! y = Some hy) by by rewrite lookup_delete_ne.
  pose proof (refs_pos f (delete x hs) y hy b Hy' Hby).
  unfold tick in Hd. rewrite decide_True in Hd by done. lia.
Qed.

Lemma release_acquire_strong w r1 r2 :
  (∀ b, r1 = Some b →
     ∃ c, heap w !! b = Some c ∧ 0 < strong_ref_ c ≤ SIZE_MAX ∧
          (r2 = Some b → 1 < strong_ref_ c)) →
  (∀ b, r2 = Some b →
     ∃ c, heap w !! b = Some c ∧ 0 ≤ strong_ref_ c < SIZE_MAX) →
  (w1 ← acquire_strong r2 w; release_strong r1 w1)
  = (w1 ← release_strong r1 w; acquire_strong r2 w1).
Proof.
  intros H1 H2. destruct r1 as [b1|], r2 as [b2|]; simpl.
  - destruct (H1 b1 eq_refl) as (c1 & Hc1 & Hs1 & Hsame).
    destruct (H2 b2 eq_refl) as (c2 & Hc2 & Hs2).
    destruct (decide (b1 = b2)) as [->|Hne].
    + simplify_eq. specialize (Hsame eq_refl).
      destruct (inc_dec_strong_ref w b2 c1 Hc1) as (w1 & -> & _ & _ & Hd);
        [lia|].
      destruct (dec_inc_strong_ref w b2 c1 Hc1) as (w2 & -> & Hi); [lia|].
      simpl. by rewrite Hd, Hi.
    + by apply (inc_dec_strong_ref_commute w b1 b2 c1 c2).
  - by destruct (dec_strong_ref b1 w).
  - by destruct (inc_strong_ref b2 w).
  - done.
Qed.

Lemma release_acquire_weak w r1 r2 :
  (∀ b, r1 = Some b →
     ∃ c, heap w !! b = Some c ∧ 0 < weak_ref_ c ≤ SIZE_MAX ∧
          (r2 = Some b → strong_ref_ c ≠ 0 ∨ 1 < weak_ref_ c)) →
  (∀ b, r2 = Some b →
     ∃ c, heap w !! b = Some c ∧ 0 ≤ weak_ref_ c < SIZE_MAX) →
  (w1 ← acquire_weak r2 w; release_weak r1 w1)
  = (w1 ← release_weak r1 w; acquire_weak r2 w1).
Proof.
  intros H1 H2. destruct r1 as [b1|], r2 as [b2|]; simpl.
  - destruct (H1 b1 eq_refl) as (c1 & Hc1 & Hs1 & Hsame).
    destruct (H2 b2 eq_refl) as (c2 & Hc2 & Hs2).
    destruct (decide (b1 = b2)) as [->|Hne].
    + simplify_eq. specialize (Hsame eq_refl).
      destruct (inc_dec_weak_ref w b2 c1 Hc1) as (w1 & -> & _ & Hd);
        [lia|lia|].
      destruct (dec_inc_weak_ref w b2 c1 Hc1) as (w2 & -> & Hi); [lia|lia|].
      simpl. by rewrite Hd, Hi.
    + by apply (inc_dec_weak_ref_commute w b1 b2 c1 c2).
  - by destruct (dec_weak_ref b1 w).
  - by destruct (inc_weak_ref b2 w).
  - done.
Qed.

(** X15. Assignment from another object is destruction followed by
    construction in place.  In every state a program reaches, and for
    pointees and deleters that touch no handle, [x = y] on two distinct
    owning handles ends in the state that destroying [x] and
    copy-constructing it from [y] ends in; so does [x = y] on two distinct
    weak handles, and [x = y] on a weak handle [x] and an owning handle [y]
    with the constructor from an owning handle.  The code takes the new
    reference before it drops the old one; the handle [y] holds its block
    throughout, so the order cannot be seen. *)
Theorem assignment_is_destroy_then_copy :
  ∀ (prog : list stmt) (x y : var) (s : State),
    run prog initial = Some s →
    Z.of_nat (length prog + 1) < SIZE_MAX →
    (x ≠ y →
       exec (Sp_assign x y) s = run [Sp_destroy x; Sp_copy x y] s ∧
       exec (Wp_assign x y) s = run [Wp_destroy x; Wp_copy x y] s) ∧
    exec (Wp_assign_shared x y) s = run [Wp_destroy x; Wp_of_shared x y] s.
Proof.
  intros prog x y s Hrun Hlen.
  destruct (reachable_wf_room prog 1 s Hrun Hlen) as [Hwf Hroom].
  destruct s as [w sp wp]. split; [intros Hne; split|].
  - simpl. unfold shared_ptr.assign.
    rewrite bool_decide_eq_true_2 by done.
    destruct (sp !! y) as [o|] eqn:Hy; destruct (sp !! x) as [h|] eqn:Hx;
      simpl; [| |destruct (shared_ptr.destroy h w); simpl; [|done]|done].
    + assert (Hcomm :
        (w1 ← acquire_strong (shared_ptr.cb o) w;
         release_strong (shared_ptr.cb h) w1)
        = (w1 ← release_strong (shared_ptr.cb h) w;
           acquire_strong (shared_ptr.cb o) w1)).
      { apply release_acquire_strong.
        - intros b Hb.
          destruct (wf_owner_block _ x h b Hwf Hroom Hx Hb)
            as (c & Hc & Hs & _ & Es & _).
          exists c. split; [done|]. split; [lia|]. intros Hb'.
          pose proof (refs_two shared_ptr.cb sp x y h o b Hne Hx Hy Hb Hb').
          unfold strong_handles in Es. simpl in Es. lia.
        - intros b Hb.
          destruct (wf_owner_block _ y o b Hwf Hroom Hy Hb)
            as (c & Hc & Hs & _).
          exists c. split; [done|lia]. }
      transitivity
        (w2 ← (w1 ← acquire_strong (shared_ptr.cb o) w;
               release_strong (shared_ptr.cb h) w1);
         Some (mk_State w2
                 (<[x := shared_ptr.mk (shared_ptr.cb o) (shared_ptr.ptr o)]>
                    sp) wp)).
      { rewrite sp_copy_acquire.
        destruct (acquire_strong (shared_ptr.cb o) w) as [w1|]; [|done].
        simpl. rewrite sp_destroy_release. simpl.
        by destruct (release_strong (shared_ptr.cb h) w1). }
      rewrite Hcomm, sp_destroy_release.
      destruct (release_strong (shared_ptr.cb h) w) as [w1|]; [|done].
      simpl. unfold fresh. rewrite lookup_delete_eq. simpl.
      rewrite lookup_delete_ne, Hy by done. simpl.
      rewrite sp_copy_acquire.
      destruct (acquire_strong (shared_ptr.cb o) w1) as [w2|]; [|done].
      simpl. by rewrite insert_delete_eq.
    + by destruct (shared_ptr.copy o w) as [[]|].
    + unfold fresh. rewrite lookup_delete_eq. simpl.
      by rewrite lookup_delete_ne, Hy by done.
  - simpl. unfold weak_ptr.assign.
    rewrite bool_decide_eq_true_2 by done.
    destruct (wp !! y) as [o|] eqn:Hy; destruct (wp !! x) as [h|] eqn:Hx;
      simpl; [| |destruct (weak_ptr.destroy h w); simpl; [|done]|done].
    + assert (Hcomm :
        (w1 ← acquire_weak (weak_ptr.cb o) w;
         release_weak (weak_ptr.cb h) w1)
        = (w1 ← release_weak (weak_ptr.cb h) w;
           acquire_weak (weak_ptr.cb o) w1)).
      { apply release_acquire_weak.
        - intros b Hb.
          destruct (wf_observer_block _ x h b Hwf Hroom Hx Hb)
            as (c & Hc & Hs & _ & _ & Ek).
          exists c. split; [done|]. split; [lia|]. intros Hb'.
          pose proof (refs_two weak_ptr.cb wp x y h o b Hne Hx Hy Hb Hb').
          unfold weak_handles in Ek. simpl in Ek. lia.
        - intros b Hb.
          destruct (wf_observer_block _ y o b Hwf Hroom Hy Hb)
            as (c & Hc & Hs & _).
          exists c. split; [done|lia]. }
      transitivity
        (w2 ← (w1 ← acquire_weak (weak_ptr.cb o) w;
               release_weak (weak_ptr.cb h) w1);
         Some (mk_State w2 sp
                 (<[x := weak_ptr.mk (weak_ptr.cb o) (weak_ptr.ptr o)]> wp))).
      { rewrite wp_copy_acquire.
        destruct (acquire_weak (weak_ptr.cb o) w) as [w1|]; [|done].
        simpl. rewrite wp_destroy_release. simpl.
        by destruct (release_weak (weak_ptr.cb h) w1). }
      rewrite Hcomm, wp_destroy_release.
      destruct (release_weak (weak_ptr.cb h) w) as [w1|]; [|done].
      simpl. unfold fresh. rewrite lookup_delete_eq. simpl.
      rewrite lookup_delete_ne, Hy by done. simpl.
      rewrite wp_copy_acquire.
      destruct (acquire_weak (weak_ptr.cb o) w1) as [w2|]; [|done].
      simpl. by rewrite insert_delete_eq.
    + by destruct (weak_ptr.copy o w) as [[]|].
    + unfold fresh. rewrite lookup_delete_eq. simpl.
      by rewrite lookup_delete_ne, Hy by done.
  - simpl. unfold weak_ptr.assign_shared.
    destruct (sp !! y) as [o|] eqn:Hy; destruct (wp !! x) as [h|] eqn:Hx;
      simpl; [| |destruct (weak_ptr.destroy h w); simpl; [|done]|done].
    + assert (Hcomm :
        (w1 ← acquire_weak (shared_ptr.cb o) w;
         release_weak (weak_ptr.cb h) w1)
        = (w1 ← release_weak (weak_ptr.cb h) w;
           acquire_weak (shared_ptr.cb o) w1)).
      { apply release_acquire_weak.
        - intros b Hb.
          destruct (wf_observer_block _ x h b Hwf Hroom Hx Hb)
            as (c & Hc & Hs & _ & Es & _).
          exists c. split; [done|]. split; [lia|]. intros Hb'. left.
          pose proof (refs_pos shared_ptr.cb sp y o b Hy Hb').
          unfold strong_handles in Es. simpl in Es. lia.
        - intros b Hb.
          destruct (wf_owner_block _ y o b Hwf Hroom Hy Hb)
            as (c & Hc & _ & Hk & _).
          exists c. split; [done|lia]. }
      transitivity
        (w2 ← (w1 ← acquire_weak (shared_ptr.cb o) w;
               release_weak (weak_ptr.cb h) w1);
         Some (mk_State w2 sp
                 (<[x := weak_ptr.mk (shared_ptr.cb o) (shared_ptr.ptr o)]>
                    wp))).
      { rewrite wp_of_shared_acquire.
        destruct (acquire_weak (shared_ptr.cb o) w) as [w1|]; [|done].
        simpl. rewrite wp_destroy_release. simpl.
        by destruct (release_weak (weak_ptr.cb h) w1). }
      rewrite Hcomm, wp_destroy_release.
      destruct (release_weak (weak_ptr.cb h) w) as [w1|]; [|done].
      simpl. unfold fresh. rewrite lookup_delete_eq. simpl.
      rewrite Hy. simpl. rewrite wp_of_shared_acquire.
      destruct (acquire_weak (shared_ptr.cb o) w1) as [w2|]; [|done].
      simpl. by rewrite insert_delete_eq.
    + by destruct (weak_ptr.of_shared o w) as [[]|].
    + unfold fresh. rewrite lookup_delete_eq. simpl. by rewrite Hy.
Qed.

Lemma assignment_is_destroy_then_copy_witness :
  exec (Sp_assign 0 1) two_owners = run [Sp_destroy 0; Sp_copy 0 1] two_owners.
Proof.
  assert (Hlen : Z.of_nat (length [Sp_make 1 Built; Sp_copy 0 1] + 1) < SIZE_MAX)
    by (unfold SIZE_MAX; simpl; lia).
  assert (Hne : (0 ≠ 1)%nat) by lia.
  exact (proj1 (proj1 (assignment_is_destroy_then_copy
                         [Sp_make 1 Built; Sp_copy 0 1] 0 1 two_owners
                         eq_refl Hlen) Hne)).
Defined.


